(** * MAPLINK: a favicon scraper (maplink.go)

    A shallow embedding of [maplink.go] and the properties of its
    pipeline: page fetch, favicon link extraction, link resolution,
    digesting, and the SQLite result store.

    Go strings are byte sequences; they are modelled by [string], whose
    characters are the 8-bit [ascii] values.  Everything the program
    obtains from the outside (network, file system, SQLite engine faults,
    the two digest algorithms) is an explicit input of the model, gathered
    in the record [Env]. *)

From Stdlib Require Import ZArith Ascii.
From Stdlib Require DecimalString DecimalZ DecimalPos.
From stdpp Require Import gmap strings list.


(** * Go values shared by all components *)

Module Go.

(** A Go call either returns or panics (run-time error). *)
Inductive result (A : Type) : Type :=
| Ret (a : A)
| Panic (msg : string).
Global Arguments Ret {A} a.
Global Arguments Panic {A} msg.

(** [strings.HasPrefix(s, prefix)]. *)
Definition HasPrefix (s prefix : string) : bool := String.prefix prefix s.

(** [s[0]]: [None] stands for the run-time panic "index out of range". *)
Definition index0 (s : string) : option ascii :=
  match s with
  | EmptyString => None
  | String c _ => Some c
  end.

Definition byte_eqb (a b : ascii) : bool := Ascii.eqb a b.

(** The byte with the given code. *)
Definition byte (n : N) : ascii := Ascii.ascii_of_N n.
Definition code (c : ascii) : N := Ascii.N_of_ascii c.

End Go.
Export Go.

(** * Link Resolver *)

Module Resolver.

(** [resolveLink]: the two [HasPrefix] tests, then the unguarded
    [link[0]], which panics on the empty string. *)
Definition resolveLink (baseURL link : string) : result string :=
  if HasPrefix link "http://" || HasPrefix link "https://" then Ret link
  else match index0 link with
       | None => Panic "runtime error: index out of range [0] with length 0"
       | Some c =>
           if byte_eqb c "/" then Ret (baseURL +:+ link)
           else Ret (baseURL +:+ "/" +:+ link)
       end.

End Resolver.
Export Resolver.

(** * A byte-level model of the regular expression used by the extractor *)

Module Regexp.

(** The fragment of Go's [regexp] syntax that the pattern of
    [extractFaviconLinks] uses.  [LazyStar p] is [c*?] for a one-character
    class [c]; [Opt] is the greedy [r?]. *)
Inductive regex : Type :=
| Byte (p : ascii -> bool)
| Eps
| Cat (r1 r2 : regex)
| Alt (r1 r2 : regex)
| Opt (r : regex)
| LazyStar (p : ascii -> bool).

(** Candidate matches of [c*?] at the start of [s], shortest first. *)
Fixpoint lazy_star (p : ascii -> bool) (s : string) : list (string * string) :=
  ("", s) ::
  match s with
  | String c t =>
      if p c then (fun mt => (String c mt.1, mt.2)) <$> lazy_star p t else []
  | EmptyString => []
  end.

(** [exec r s]: every way [r] matches a prefix of [s], as pairs
    (matched text, rest), in the order a backtracking matcher tries them.
    Go's [regexp] (non-POSIX) returns the leftmost match and, among those,
    "the one that a backtracking search would have found first": the head
    of this list. *)
Fixpoint exec (r : regex) (s : string) : list (string * string) :=
  match r with
  | Byte p =>
      match s with
      | String c t => if p c then [(String c "", t)] else []
      | EmptyString => []
      end
  | Eps => [("", s)]
  | Cat r1 r2 =>
      mt1 ← exec r1 s;
      (fun mt2 => (mt1.1 +:+ mt2.1, mt2.2)) <$> exec r2 mt1.2
  | Alt r1 r2 => exec r1 s ++ exec r2 s
  | Opt r1 => exec r1 s ++ [("", s)]
  | LazyStar p => lazy_star p s
  end.

(** The least number of bytes a match of [r] has. *)
Fixpoint min_len (r : regex) : nat :=
  match r with
  | Byte _ => 1
  | Eps | Opt _ | LazyStar _ => 0
  | Cat r1 r2 => min_len r1 + min_len r2
  | Alt r1 r2 => min_len r1 `min` min_len r2
  end.

(** The preferred match of [r] anchored at the start of [s]. *)
Definition match_here (r : regex) (s : string) : option (string * string) :=
  head (exec r s).

(** [re.FindAllString(s, -1)]: successive non-overlapping matches, each
    the leftmost one at or after the end of the previous match.  [fuel]
    bounds the number of scan steps; [S (length s)] is always enough.
    After an empty match Go moves on by one character; the pattern of
    this program never matches the empty string ([favicon_re_nonempty]). *)
Fixpoint find_all (fuel : nat) (r : regex) (s : string) : list string :=
  match fuel with
  | O => []
  | S fuel' =>
      match match_here r s with
      | Some (String c m, t) => String c m :: find_all fuel' r t
      | Some (EmptyString, _) =>
          match s with
          | String _ t => "" :: find_all fuel' r t
          | EmptyString => [""]
          end
      | None =>
          match s with
          | String _ t => find_all fuel' r t
          | EmptyString => []
          end
      end
  end.

Definition FindAllString (r : regex) (s : string) : list string :=
  find_all (S (String.length s)) r s.

(** ** Case folding, [(?i)]

    Under [(?i)] a literal letter matches every rune of its simple-fold
    orbit.  For ASCII letters the orbit is the two cases, except that
    [k] also folds to U+212A (KELVIN SIGN, bytes E2 84 AA) and [s] to
    U+017F (LATIN SMALL LETTER LONG S, bytes C5 BF). *)

Definition is_upper (c : ascii) : bool :=
  (code "A" <=? code c)%N && (code c <=? code "Z")%N.
Definition is_lower (c : ascii) : bool :=
  (code "a" <=? code c)%N && (code c <=? code "z")%N.
Definition to_lower (c : ascii) : ascii :=
  if is_upper c then byte (code c + 32) else c.

Definition lit (c : ascii) : regex := Byte (byte_eqb c).
Definition bytes_lit (l : list N) : regex :=
  foldr (fun n r => Cat (lit (byte n)) r) Eps l.

Definition fold_lit (c : ascii) : regex :=
  let ascii_cases := Byte (fun d => byte_eqb (to_lower d) (to_lower c)) in
  if byte_eqb (to_lower c) "k" then Alt ascii_cases (bytes_lit [226; 132; 170]%N)
  else if byte_eqb (to_lower c) "s" then Alt ascii_cases (bytes_lit [197; 191]%N)
  else if is_lower (to_lower c) then ascii_cases
  else lit c.

(** A literal string under [(?i)]. *)
Fixpoint fold_str (s : string) : regex :=
  match s with
  | EmptyString => Eps
  | String c t => Cat (fold_lit c) (fold_str t)
  end.

(** [\s] is [[\t\n\f\r ]] in Go's syntax. *)
Definition perl_space (c : ascii) : bool :=
  byte_eqb c "009" || byte_eqb c "010" || byte_eqb c "012"
  || byte_eqb c "013" || byte_eqb c " ".

(** The negated class of the pattern: anything but a double quote
    (byte 34) or [\s].  The class matches one rune; a rune of several bytes
    has no byte that is a quote, a space or [/], so taking it byte by byte
    under [*?] gives the same matches. *)
Definition not_quote_space (c : ascii) : bool :=
  negb (byte_eqb c (byte 34) || perl_space c).

End Regexp.
Export Regexp.

(** * Favicon Link Extractor *)

Module Extractor.

(** The pattern of [extractFaviconLinks], compiled by [regexp.MustCompile]:
    [(?i)(https?://C*?/favicon\.ico|/favicon\.ico|favicon\.ico)] where [C]
    is the negated class [not_quote_space]. *)
Definition favicon_re : regex :=
  Alt (Cat (fold_str "http")
        (Cat (Opt (fold_lit "s"))
          (Cat (fold_str "://")
            (Cat (LazyStar not_quote_space) (fold_str "/favicon.ico")))))
      (Alt (fold_str "/favicon.ico") (fold_str "favicon.ico")).

(** The scheme part of the first alternative, [(?i)https?://], and the
    test that a reference starts with a scheme in any letter case. *)
Definition scheme_re : regex :=
  Cat (fold_str "http") (Cat (Opt (fold_lit "s")) (fold_str "://")).

Definition has_scheme_ci (link : string) : bool :=
  bool_decide (is_Some (match_here scheme_re link)).

(** One iteration of the loop over [matches]: the state is the map
    [seen] (used as a set) and the slice [links]. *)
Definition dedup_step (st : gset string * list string) (m : string)
  : gset string * list string :=
  if decide (m ∈ st.1) then st else ({[m]} ∪ st.1, st.2 ++ [m]).

Definition dedup_loop (matches : list string) : gset string * list string :=
  foldl dedup_step (∅, []) matches.

Definition extractFaviconLinks (content : string) : list string :=
  (dedup_loop (FindAllString favicon_re content)).2.

End Extractor.
Export Extractor.

(** * The outside world *)

Module World.

(** Error values.  [Error] below is the method [err.Error()]. *)
Inductive error : Type :=
| TransportError (msg : string)   (* from [http.Get], [io.ReadAll], [io.Copy] *)
| StatusError (code : Z)          (* [fmt.Errorf] in [fetchHTML] *)
| StorageError (msg : string)     (* from [db.Exec] *)
| InputError (msg : string)       (* from [os.Open] or a failed read *)
| ErrTooLong.                     (* [bufio.ErrTooLong] *)

(** A Go result pair (value, error). *)
Inductive fallible (A : Type) : Type :=
| Ok (a : A)
| Err (e : error).
Global Arguments Ok {A} a.
Global Arguments Err {A} e.

(** [%d] of an [int]. *)
Definition itoa (z : Z) : string :=
  DecimalString.NilZero.string_of_int (Z.to_int z).

Definition Error (e : error) : string :=
  match e with
  | TransportError msg | StorageError msg | InputError msg => msg
  | StatusError code => "error: status code " +:+ itoa code
  | ErrTooLong => "bufio.Scanner: token too long"
  end.

(** A response body: the bytes the stream delivers, then end of stream
    or a read error. *)
Record Body : Type := { data : string; read_err : option string }.

(** What [http.Get] returns. *)
Inductive get_result : Type :=
| GetErr (msg : string)
| GetResp (StatusCode : Z) (body : Body).

(** What [os.Open] gives: an error, or a file whose reads deliver
    [content] and then end of file or a read error. *)
Inductive open_result : Type :=
| OpenErr (msg : string)
| Opened (content : string) (read_err : option string).

(** Everything the run takes from its environment.  The network and the
    SQLite engine may answer differently each time: their oracles take
    the number of earlier calls. *)
Record Env : Type := {
  http_Get : nat -> string -> get_result;
  os_Open : string -> open_result;
  sql_Open : option string;
  exec_fault : nat -> option string;
  md5_hex : string -> string;
  sha256_hex : string -> string
}.

(** ** The table [favicons] *)

Record row : Type := { id : Z; link : string; md5 : string; sha256 : string }.

(** [rows] in insertion order; [seq] is the AUTOINCREMENT counter kept in
    [sqlite_sequence]. *)
Record table : Type := { rows : list row; seq : Z }.

Definition empty_table : table := {| rows := []; seq := 0 |}.

Inductive stmt : Type :=
| CreateTableIfNotExists
| InsertOrIgnore (l m s : string).

(** ** Observable effects *)

Inductive event : Type :=
| Stdout (text : string)
| Stderr (text : string)
| EvOpenFile (name : string)
| EvHttpGet (url : string)
| EvOpenDb
| EvExec (q : stmt)
| EvCloseDb.

Record State : Type := {
  requests : nat;          (* HTTP requests issued so far *)
  execs : nat;             (* SQL statements executed so far *)
  store : option table;    (* table [favicons] of ./favicons.db, if it exists *)
  trace : list event       (* effects so far, oldest first *)
}.

Definition emit (e : event) (st : State) : State :=
  {| requests := requests st; execs := execs st; store := store st;
     trace := trace st ++ [e] |}.

Definition count_request (st : State) : State :=
  {| requests := S (requests st); execs := execs st; store := store st;
     trace := trace st |}.

Definition count_exec (st : State) : State :=
  {| requests := requests st; execs := S (execs st); store := store st;
     trace := trace st |}.

Definition set_store (t : table) (st : State) : State :=
  {| requests := requests st; execs := execs st; store := Some t;
     trace := trace st |}.

Definition nl : string := String (byte 10) "".

(** [http.Get(url)] as a step of the run. *)
Definition http_get (env : Env) (url : string) (st : State)
  : get_result * State :=
  (http_Get env (requests st) url, count_request (emit (EvHttpGet url) st)).

End World.
Export World.

(** * Page Fetcher *)

Module Fetcher.

Definition StatusOK : Z := 200.

Definition fetchHTML (env : Env) (url : string) (st : State)
  : fallible string * State :=
  let '(r, st) := http_get env url st in
  match r with
  | GetErr msg => (Err (TransportError msg), st)
  | GetResp code body =>
      if negb (code =? StatusOK)%Z then (Err (StatusError code), st)
      else match read_err body with
           | Some msg => (Err (TransportError msg), st)
           | None => (Ok (data body), st)
           end
  end.

End Fetcher.
Export Fetcher.

(** * Digest Calculator *)

Module Digest.

(** [io.Copy(h, resp.Body)]: the bytes hashed, or the read error. *)
Definition copy_all (b : Body) : fallible string :=
  match read_err b with
  | Some msg => Err (TransportError msg)
  | None => Ok (data b)
  end.

(** Two requests; the status code is not looked at. *)
Definition calculateHashes (env : Env) (url : string) (st : State)
  : fallible (string * string) * State :=
  let '(r1, st) := http_get env url st in
  match r1 with
  | GetErr msg => (Err (TransportError msg), st)
  | GetResp _ body1 =>
      match copy_all body1 with
      | Err e => (Err e, st)
      | Ok bytes1 =>
          let '(r2, st) := http_get env url st in
          match r2 with
          | GetErr msg => (Err (TransportError msg), st)
          | GetResp _ body2 =>
              match copy_all body2 with
              | Err e => (Err e, st)
              | Ok bytes2 =>
                  (Ok (md5_hex env bytes1, sha256_hex env bytes2), st)
              end
          end
      end
  end.

End Digest.
Export Digest.

(** * Result Store *)

Module Store.

Definition links_of (t : table) : list string := link <$> rows t.


Definition max_id (rs : list row) : Z :=
  foldr (fun r m => Z.max (id r) m) 0%Z rs.

(** AUTOINCREMENT: one more than the largest id ever used. *)
Definition next_id (t : table) : Z := (Z.max (seq t) (max_id (rows t)) + 1)%Z.

(** [INSERT OR IGNORE INTO favicons(link, md5, sha256) VALUES(?, ?, ?)]
    on a table whose column [link] is UNIQUE: a row that would break the
    constraint is dropped without an error. *)
Definition insert_or_ignore (l m s : string) (t : table) : table :=
  if decide (l ∈ links_of t) then t
  else
    let i := next_id t in
    {| rows := rows t ++ [{| id := i; link := l; md5 := m; sha256 := s |}];
       seq := i |}.

(** [db.Exec] for the two statements of the program.  An engine fault
    (disk, permissions, corruption) fails the statement and leaves the
    table as it was. *)
Definition db_Exec (env : Env) (q : stmt) (st : State) : option error * State :=
  let fault := exec_fault env (execs st) in
  let st := count_exec (emit (EvExec q) st) in
  match fault with
  | Some msg => (Some (StorageError msg), st)
  | None =>
      match q with
      | CreateTableIfNotExists =>
          (None, set_store (default empty_table (store st)) st)
      | InsertOrIgnore l m s =>
          match store st with
          | None => (Some (StorageError "no such table: favicons"), st)
          | Some t => (None, set_store (insert_or_ignore l m s t) st)
          end
      end
  end.

Definition saveToDatabase (env : Env) (link md5Hash sha256Hash : string)
    (st : State) : option error * State :=
  db_Exec env (InsertOrIgnore link md5Hash sha256Hash) st.

(** A sequence of [saveToDatabase] calls; as in [main], an error of one
    call does not stop the next. *)
Definition save_all (env : Env) (calls : list (string * string * string))
    (st : State) : State :=
  foldl (fun st c => (saveToDatabase env c.1.1 c.1.2 c.2 st).2) st calls.

(** The constraints the engine maintains: UNIQUE(link), PRIMARY KEY(id). *)
Definition table_ok (t : table) : Prop :=
  NoDup (links_of t) ∧ NoDup (id <$> rows t).

End Store.
Export Store.

(** * Reading the URL list *)

Module Reader.

Definition bytes (s : string) : list ascii := String.list_ascii_of_string s.
Definition of_bytes (l : list ascii) : string := String.string_of_list_ascii l.

(** UTF-8 encodings of the runes for which [unicode.IsSpace] holds:
    U+0009..U+000D, U+0020, U+0085, U+00A0, U+1680, U+2000..U+200A,
    U+2028, U+2029, U+202F, U+205F, U+3000. *)
Definition space_encodings : list (list ascii) :=
  map (map byte)
    [ [9]; [10]; [11]; [12]; [13]; [32];
      [194; 133]; [194; 160];
      [225; 154; 128];
      [226; 128; 128]; [226; 128; 129]; [226; 128; 130]; [226; 128; 131];
      [226; 128; 132]; [226; 128; 133]; [226; 128; 134]; [226; 128; 135];
      [226; 128; 136]; [226; 128; 137]; [226; 128; 138];
      [226; 128; 168]; [226; 128; 169]; [226; 128; 175];
      [226; 129; 159];
      [227; 128; 128] ]%N.

Definition is_space (enc : list ascii) : bool :=
  bool_decide (enc ∈ space_encodings).

(** [strings.TrimLeftFunc(s, unicode.IsSpace)] on the bytes of [s]: drop
    leading runes while they are white space. *)
Fixpoint trim_left (s : list ascii) : list ascii :=
  match s with
  | [] => []
  | c :: t =>
      if is_space [c] then trim_left t
      else match t with
           | d :: t2 =>
               if is_space [c; d] then trim_left t2
               else match t2 with
                    | e :: t3 => if is_space [c; d; e] then trim_left t3 else s
                    | [] => s
                    end
           | [] => s
           end
  end.

(** The same from the end, on the reversed bytes: [c] is the last byte. *)
Fixpoint trim_left_rev (s : list ascii) : list ascii :=
  match s with
  | [] => []
  | c :: t =>
      if is_space [c] then trim_left_rev t
      else match t with
           | d :: t2 =>
               if is_space [d; c] then trim_left_rev t2
               else match t2 with
                    | e :: t3 => if is_space [e; d; c] then trim_left_rev t3 else s
                    | [] => s
                    end
           | [] => s
           end
  end.

(** The first rune of [s] is white space; the last rune of the sequence
    whose reversal is [s] is white space. *)
Definition starts_space (s : list ascii) : bool :=
  match s with
  | [] => false
  | c :: t =>
      is_space [c]
      || match t with
         | [] => false
         | d :: t2 =>
             is_space [c; d]
             || match t2 with
                | [] => false
                | e :: _ => is_space [c; d; e]
                end
         end
  end.

Definition starts_space_rev (s : list ascii) : bool :=
  match s with
  | [] => false
  | c :: t =>
      is_space [c]
      || match t with
         | [] => false
         | d :: t2 =>
             is_space [d; c]
             || match t2 with
                | [] => false
                | e :: _ => is_space [e; d; c]
                end
         end
  end.

Definition trim_right (s : list ascii) : list ascii :=
  reverse (trim_left_rev (reverse s)).

(** [strings.TrimSpace]. *)
Definition TrimSpace (s : string) : string :=
  of_bytes (trim_right (trim_left (bytes s))).

(** The pieces [bufio.ScanLines] cuts the input into, before the
    carriage return is dropped: each ends at a newline (not included);
    a last piece without newline counts when it is not empty. *)
Fixpoint split_lines (s : string) : list string :=
  match s with
  | EmptyString => []
  | String c t =>
      if byte_eqb c (byte 10) then "" :: split_lines t
      else match split_lines t with
           | [] => [String c ""]
           | l :: ls => String c l :: ls
           end
  end.

(** [dropCR]. *)
Definition dropCR (s : string) : string :=
  match reverse (bytes s) with
  | c :: r => if byte_eqb c (byte 13) then of_bytes (reverse r) else s
  | [] => s
  end.

(** [bufio.MaxScanTokenSize]: the scanner's buffer holds at most this
    many bytes, so it gives up with [ErrTooLong] at a line that has this
    many bytes before its newline. *)
Definition MaxScanTokenSize : N := 65536.

(** A line the scanner can hold. *)
Definition short (line : string) : Prop :=
  (N.of_nat (String.length line) < MaxScanTokenSize)%N.

(** What the loop body makes of a line: [strings.TrimSpace(scanner.Text())]. *)
Definition url_of_line (line : string) : string := TrimSpace (dropCR line).

(** The loop [for scanner.Scan() { ... }] followed by [scanner.Err()].
    [urls] is the slice built so far; [rerr] is the error that ends the
    reads of the file, if any. *)
Fixpoint scan_loop (lines : list string) (rerr : option string)
    (urls : list string) : fallible (list string) :=
  match lines with
  | [] =>
      match rerr with
      | Some msg => Err (InputError msg)
      | None => Ok urls
      end
  | line :: rest =>
      if (MaxScanTokenSize <=? N.of_nat (String.length line))%N then Err ErrTooLong
      else
        let url := url_of_line line in
        scan_loop rest rerr (if decide (url = "") then urls else urls ++ [url])
  end.

Definition readURLsFromFile (env : Env) (filename : string) (st : State)
  : fallible (list string) * State :=
  let st := emit (EvOpenFile filename) st in
  match os_Open env filename with
  | OpenErr msg => (Err (InputError msg), st)
  | Opened content rerr => (scan_loop (split_lines content) rerr [], st)
  end.

End Reader.
Export Reader.

(** * Orchestrator *)

Module Orchestrator.

Definition Println (text : string) (st : State) : State :=
  emit (Stdout (text +:+ nl)) st.
Definition Eprint (text : string) (st : State) : State :=
  emit (Stderr text) st.

(** The progress line of a Target URL. *)
Definition progress_line (baseURL : string) : event :=
  Stdout (("Processing URL: " +:+ baseURL) +:+ nl).

(** [evs] falls into one run of events per URL of [urls], in order, each
    run opening with the progress line of its URL. *)
Definition one_run_per_url (urls : list string) (evs : list event) : Prop :=
  exists runs, evs = concat runs
    /\ Forall2 (fun u run => exists rest, run = progress_line u :: rest) urls runs.

(** The body of the inner loop, for one favicon link. *)
Definition process_link (env : Env) (baseURL link : string) (st : State)
  : result State :=
  match resolveLink baseURL link with
  | Panic msg => Panic msg
  | Ret fullURL =>
      match calculateHashes env fullURL st with
      | (Err e, st) =>
          Ret (Eprint ("Error calculating hash for " +:+ fullURL +:+ ": "
                       +:+ Error e +:+ nl) st)
      | (Ok (md5Hash, sha256Hash), st) =>
          let st := Println ("Favicon: " +:+ fullURL +:+ " | MD5: " +:+ md5Hash
                             +:+ " | SHA256: " +:+ sha256Hash) st in
          match saveToDatabase env fullURL md5Hash sha256Hash st with
          | (Some e, st) =>
              Ret (Eprint ("Error saving to database for " +:+ link +:+ ": "
                           +:+ Error e +:+ nl) st)
          | (None, st) => Ret st
          end
      end
  end.

(** [for _, link := range faviconLinks]. *)
Fixpoint process_links (env : Env) (baseURL : string) (links : list string)
    (st : State) : result State :=
  match links with
  | [] => Ret st
  | link :: rest =>
      match process_link env baseURL link st with
      | Panic msg => Panic msg
      | Ret st => process_links env baseURL rest st
      end
  end.

(** The body of the outer loop, for one Target URL. *)
Definition process_url (env : Env) (baseURL : string) (st : State)
  : result State :=
  let st := Println ("Processing URL: " +:+ baseURL) st in
  match fetchHTML env baseURL st with
  | (Err e, st) => Ret (Eprint ("Error fetching HTML: " +:+ Error e +:+ nl) st)
  | (Ok htmlContent, st) =>
      let faviconLinks := extractFaviconLinks htmlContent in
      if decide (length faviconLinks = 0) then
        Ret (Println "No favicon.ico links found." st)
      else process_links env baseURL faviconLinks st
  end.

(** [for _, baseURL := range urls]. *)
Fixpoint process_urls (env : Env) (urls : list string) (st : State)
  : result State :=
  match urls with
  | [] => Ret st
  | baseURL :: rest =>
      match process_url env baseURL st with
      | Panic msg => Panic msg
      | Ret st => process_urls env rest st
      end
  end.

(** [defer db.Close()]: runs when [main] returns. *)
Definition closing (r : result State) : result State :=
  match r with
  | Ret st => Ret (emit EvCloseDb st)
  | Panic msg => Panic msg
  end.

(** [main].  [flag_file] is the value given to [-file] on the command
    line, if any; the flag's default is the empty string. *)
Definition main (env : Env) (flag_file : option string) (st : State)
  : result State :=
  let filename := default "" flag_file in
  if decide (filename = "") then
    Ret (Println "Please provide a filename using the -file flag." st)
  else
    match readURLsFromFile env filename st with
    | (Err e, st) =>
        Ret (Eprint ("Error reading URLs from file: " +:+ Error e +:+ nl) st)
    | (Ok urls, st) =>
        let st := emit EvOpenDb st in
        match sql_Open env with
        | Some msg => Ret (Eprint ("Error opening database: " +:+ msg +:+ nl) st)
        | None =>
            closing
              match db_Exec env CreateTableIfNotExists st with
              | (Some e, st) =>
                  Ret (Eprint ("Error creating table: " +:+ Error e +:+ nl) st)
              | (None, st) => process_urls env urls st
              end
        end
    end.

End Orchestrator.
Export Orchestrator.

(** * Concrete environments, for the examples *)

Module Scenario.

(** An environment that answers every request with [get] and opens
    every file as [file]; the engine never faults and the digests are
    kept symbolic. *)
Definition const_env (get : get_result) (file : open_result) : Env :=
  {| http_Get := fun _ _ => get;
     os_Open := fun _ => file;
     sql_Open := None;
     exec_fault := fun _ => None;
     md5_hex := fun b => "md5:" +:+ b;
     sha256_hex := fun b => "sha256:" +:+ b |}.

Definition body_of (text : string) : Body := {| data := text; read_err := None |}.

(** Before the run, with no database file yet, or with a table. *)
Definition start : State :=
  {| requests := 0; execs := 0; store := None; trace := [] |}.

Definition start_with (t : table) : State :=
  {| requests := 0; execs := 0; store := Some t; trace := [] |}.

(** The double quote character, as a string. *)
Definition quote : string := String (byte 34) "".

(** The page of the end-to-end scenario: a [link] element whose [rel] is
    icon and whose [href] is /favicon.ico, both attributes quoted. *)
Definition icon_page : string :=
  "<link rel=" +:+ quote +:+ "icon" +:+ quote +:+ " href=" +:+ quote
  +:+ "/favicon.ico" +:+ quote +:+ ">".

(** A network with a page that answers 404, a page that links its
    favicon, and that favicon; with the list of the two pages. *)
Definition two_pages_env : Env :=
  {| http_Get := fun _ url =>
       if decide (url = "http://bad.test") then GetResp 404 (body_of "gone")
       else if decide (url = "http://example.test") then
         GetResp 200 (body_of icon_page)
       else if decide (url = "http://example.test/favicon.ico") then
         GetResp 200 (body_of "ICO")
       else GetErr "no such host";
     os_Open := fun _ =>
       Opened ("http://bad.test" +:+ nl +:+ "http://example.test" +:+ nl) None;
     sql_Open := None;
     exec_fault := fun _ => None;
     md5_hex := fun b => "md5:" +:+ b;
     sha256_hex := fun b => "sha256:" +:+ b |}.


End Scenario.
Export Scenario.

(** * Notions used to state further properties *)

Module Notions.

(** Lower-casing of the ASCII letters of a string, byte by byte. *)
Fixpoint lower_str (s : string) : string :=
  match s with
  | EmptyString => EmptyString
  | String c t => String (to_lower c) (lower_str t)
  end.

(** Every byte that a character class of [r] accepts satisfies [q]. *)
Fixpoint bytes_within (q : ascii -> bool) (r : regex) : Prop :=
  match r with
  | Byte p | LazyStar p => forall c, p c = true -> q c = true
  | Eps => True
  | Cat r1 r2 | Alt r1 r2 => bytes_within q r1 /\ bytes_within q r2
  | Opt r1 => bytes_within q r1
  end.

(** The number of bytes of a list of strings. *)
Definition total_length (l : list string) : nat :=
  foldr (fun m n => String.length m + n) 0 l.

(** The text of a URL list file with each URL on a line of its own. *)
Definition join_lines (urls : list string) : string :=
  foldr (fun u acc => u +:+ nl +:+ acc) "" urls.

(** The URLs of a sequence of [saveToDatabase] calls. *)
Definition call_links (calls : list (string * string * string)) : list string :=
  (fun c => c.1.1) <$> calls.

(** The later state still has every row of the earlier table, in place,
    and keeps the constraints if they held. *)
Definition store_grows (st st' : State) : Prop :=
  forall t, store st = Some t ->
    exists t', store st' = Some t'
      /\ rows t `prefix_of` rows t'
      /\ (table_ok t -> table_ok t').

(** At most [2 * k] further requests and [k] further statements. *)
Definition within_budget (k : nat) (st st' : State) : Prop :=
  requests st <= requests st' <= requests st + 2 * k
  /\ execs st <= execs st' <= execs st + k.

End Notions.
Export Notions.

(** * Properties of the Link Resolver *)

Section ResolverFacts.

Implicit Types base link : string.

Lemma HasPrefix_cons s c p :
  HasPrefix s (String c p) = true -> exists t, s = String c t.
Proof.
  unfold HasPrefix. destruct s as [|d t]; simpl; [done|].
  destruct (Ascii.ascii_dec c d) as [->|]; [eauto|done].
Qed.

Lemma byte_eqb_true a b : byte_eqb a b = true <-> a = b.
Proof. apply Ascii.eqb_eq. Qed.

Lemma HasPrefix_slash link :
  HasPrefix link "/" = true <-> exists t, link = String "/" t.
Proof.
  split.
  - apply HasPrefix_cons.
  - intros [t ->]. unfold HasPrefix. simpl. by destruct t.
Qed.

Lemma HasPrefix_slash_false c t :
  HasPrefix (String c t) "/" = false -> byte_eqb c "/" = false.
Proof.
  intros H. destruct (byte_eqb c "/") eqn:E; [|done].
  apply byte_eqb_true in E as ->.
  assert (HasPrefix (String "/" t) "/" = true) by (apply HasPrefix_slash; eauto).
  congruence.
Qed.

(** On a non-empty reference the resolver always returns. *)
Lemma resolveLink_returns base link :
  link <> "" -> exists full, resolveLink base link = Ret full.
Proof.
  intros Hne. unfold resolveLink.
  destruct (_ || _); [eauto|].
  destruct link as [|c t]; [done|]. simpl.
  destruct (byte_eqb c "/"); eauto.
Qed.

End ResolverFacts.


(** C3: for a non-empty reference, [resolveLink] returns the reference
    unchanged when it starts with http:// or https://, base + reference
    when it starts with a slash, and base + slash + reference otherwise;
    with the three examples of the specification. *)
Theorem resolveLink_rules (base link : string) :
  link <> "" ->
  (HasPrefix link "http://" = true \/ HasPrefix link "https://" = true ->
     resolveLink base link = Ret link)
  /\ (HasPrefix link "/" = true -> resolveLink base link = Ret (base +:+ link))
  /\ (HasPrefix link "http://" = false -> HasPrefix link "https://" = false ->
      HasPrefix link "/" = false ->
      resolveLink base link = Ret (base +:+ "/" +:+ link))
  /\ resolveLink "http://a.com" "http://b.com/f.ico" = Ret "http://b.com/f.ico"
  /\ resolveLink "http://a.com" "/favicon.ico" = Ret "http://a.com/favicon.ico"
  /\ resolveLink "http://a.com" "favicon.ico" = Ret "http://a.com/favicon.ico".
Proof.
  intros Hne. repeat split.
  - unfold resolveLink. intros [-> | ->]; [done|]. by rewrite orb_true_r.
  - intros [t ->]%HasPrefix_slash. reflexivity.
  - intros H1 H2 H3. unfold resolveLink. rewrite H1, H2. simpl.
    destruct link as [|c t]; [done|]. simpl.
    by rewrite (HasPrefix_slash_false _ _ H3).
Qed.

Lemma resolveLink_rules_witness :
  "favicon.ico" <> ""
  /\ resolveLink "http://a.com" "favicon.ico"
     = Ret ("http://a.com" +:+ "/" +:+ "favicon.ico").
Proof.
  split; [discriminate|].
  apply (resolveLink_rules "http://a.com" "favicon.ico"); [discriminate|..];
    reflexivity.
Defined.

(** C9: the resolver compares the scheme case-sensitively.  A reference
    that starts with a scheme in some other letter case than the exact
    lowercase http:// or https:// is resolved as a relative one, to
    base + slash + reference; the extractor, which matches in any case,
    produces such references. *)
Theorem resolveLink_scheme_case_sensitive (base link : string) :
  has_scheme_ci link = true ->
  HasPrefix link "http://" = false ->
  HasPrefix link "https://" = false ->
  resolveLink base link = Ret (base +:+ "/" +:+ link)
  /\ extractFaviconLinks "<link href=HTTP://b.com/favicon.ico>"
     = ["HTTP://b.com/favicon.ico"]
  /\ resolveLink "http://a.com" "HTTP://b.com/favicon.ico"
     = Ret "http://a.com/HTTP://b.com/favicon.ico".
Proof.
  intros Hci H1 H2. split; [|split; vm_compute; reflexivity].
  unfold resolveLink. rewrite H1, H2. simpl.
  destruct link as [|c t]; [by vm_compute in Hci|]. simpl.
  destruct (byte_eqb c "/") eqn:E; [|done].
  apply byte_eqb_true in E as ->. by vm_compute in Hci.
Qed.

Lemma resolveLink_scheme_case_sensitive_witness :
  has_scheme_ci "HTTPS://b.com/favicon.ico" = true
  /\ HasPrefix "HTTPS://b.com/favicon.ico" "http://" = false
  /\ HasPrefix "HTTPS://b.com/favicon.ico" "https://" = false
  /\ resolveLink "http://a.com" "HTTPS://b.com/favicon.ico"
     = Ret ("http://a.com" +:+ "/" +:+ "HTTPS://b.com/favicon.ico").
Proof.
  split; [by vm_compute|]. split; [reflexivity|]. split; [reflexivity|].
  apply (resolveLink_scheme_case_sensitive "http://a.com"
           "HTTPS://b.com/favicon.ico"); [by vm_compute|reflexivity..].
Defined.

(** * Properties of the matcher and of the extractor *)

Section StringFacts.

Lemma app_cons c (a b : string) : String c a +:+ b = String c (a +:+ b).
Proof. reflexivity. Qed.

Lemma app_empty_l (a : string) : "" +:+ a = a.
Proof. reflexivity. Qed.

Lemma app_empty_r (a : string) : a +:+ "" = a.
Proof. induction a as [|c a IH]; [done|]. by rewrite app_cons, IH. Qed.

Lemma app_assoc_str (a b c : string) : (a +:+ b) +:+ c = a +:+ (b +:+ c).
Proof. induction a as [|x a IH]; [done|]. by rewrite !app_cons, IH. Qed.

Lemma length_app_str (a b : string) :
  String.length (a +:+ b) = String.length a + String.length b.
Proof. induction a as [|x a IH]; [done|]. rewrite app_cons. simpl. by rewrite IH. Qed.

End StringFacts.

Section RegexpFacts.

Implicit Types (r : regex) (s m t : string).

Lemma lazy_star_sound p s m t : (m, t) ∈ lazy_star p s -> s = m +:+ t.
Proof.
  revert m t. induction s as [|c s IH]; intros m t; simpl.
  - by intros [= -> ->]%list_elem_of_singleton.
  - intros [[= -> ->]|H]%elem_of_cons; [done|].
    destruct (p c); [|by apply elem_of_nil in H].
    apply list_elem_of_fmap in H as [[m' t'] [[= -> ->] Hin]].
    simpl. rewrite app_cons. f_equal. by apply IH.
Qed.

(** What [exec] reports as matched text and rest is a split of the input. *)
Lemma exec_sound r s m t : (m, t) ∈ exec r s -> s = m +:+ t.
Proof.
  revert s m t. induction r as [p| |r1 IH1 r2 IH2|r1 IH1 r2 IH2|r1 IH1|p];
    intros s m t; simpl.
  - destruct s as [|c s]; [by intros ?%elem_of_nil|].
    destruct (p c); [|by intros ?%elem_of_nil].
    by intros [= -> ->]%list_elem_of_singleton.
  - by intros [= -> ->]%list_elem_of_singleton.
  - intros [[m1 t1] [H2 H1]]%list_elem_of_bind.
    apply list_elem_of_fmap in H2 as [[m2 t2] [[= -> ->] H2]]. simpl in *.
    apply IH1 in H1 as ->. apply IH2 in H2 as ->. by rewrite app_assoc_str.
  - intros [H|H]%elem_of_app; eauto.
  - intros [H|[= -> ->]%list_elem_of_singleton]%elem_of_app; eauto.
  - apply lazy_star_sound.
Qed.

Lemma exec_min_len r s m t : (m, t) ∈ exec r s -> min_len r <= String.length m.
Proof.
  revert s m t. induction r as [p| |r1 IH1 r2 IH2|r1 IH1 r2 IH2|r1 IH1|p];
    intros s m t; simpl; try lia.
  - destruct s as [|c s]; [by intros ?%elem_of_nil|].
    destruct (p c); [|by intros ?%elem_of_nil].
    by intros [= -> ->]%list_elem_of_singleton.
  - intros [[m1 t1] [H2 H1]]%list_elem_of_bind.
    apply list_elem_of_fmap in H2 as [[m2 t2] [[= -> ->] H2]]. simpl in *.
    apply IH1 in H1. apply IH2 in H2. rewrite length_app_str. lia.
  - intros [H|H]%elem_of_app; [apply IH1 in H|apply IH2 in H]; lia.
Qed.

Lemma match_here_elem r s m t : match_here r s = Some (m, t) -> (m, t) ∈ exec r s.
Proof.
  unfold match_here. destruct (exec r s) as [|x l]; [done|].
  intros [= ->]. apply elem_of_cons; by left.
Qed.

(** A pattern whose matches have at least one byte only yields non-empty
    strings from [FindAllString]. *)
Lemma find_all_nonempty fuel r s :
  0 < min_len r -> Forall (fun m => m <> "") (find_all fuel r s).
Proof.
  intros Hr. revert s. induction fuel as [|fuel IH]; intros s; simpl; [done|].
  destruct (match_here r s) as [[m t]|] eqn:Hm.
  - apply match_here_elem, exec_min_len in Hm.
    destruct m as [|c m]; [simpl in Hm; lia|].
    constructor; [done|apply IH].
  - destruct s; [done|apply IH].
Qed.

(** Every string [FindAllString] returns occurs in the text. *)
Lemma find_all_substring fuel r s x :
  x ∈ find_all fuel r s -> exists pre post, s = pre +:+ x +:+ post.
Proof.
  revert s. induction fuel as [|fuel IH]; intros s; simpl;
    [by intros ?%elem_of_nil|].
  assert (forall c t, x ∈ find_all fuel r t ->
            exists pre post, String c t = pre +:+ x +:+ post) as Hskip.
  { intros c t (pre & post & ->)%IH. by exists (String c pre), post. }
  destruct (match_here r s) as [[m t]|] eqn:Hm.
  - apply match_here_elem, exec_sound in Hm as ->.
    destruct m as [|c m].
    + destruct t as [|d t].
      * intros ->%list_elem_of_singleton. by exists "", "".
      * intros [->|H]%elem_of_cons; [by exists "", (String d t)|].
        rewrite app_empty_l. by apply Hskip.
    + intros [->|(pre & post & ->)%IH]%elem_of_cons.
      * by exists "", t.
      * exists (String c m +:+ pre), post. by rewrite app_assoc_str.
  - destruct s as [|c t]; [by intros ?%elem_of_nil|]. apply Hskip.
Qed.

End RegexpFacts.

Section MatchFacts.

Implicit Types (r : regex) (s m t : string).

Lemma lazy_star_frame p s m t t' :
  (m, t) ∈ lazy_star p s -> (m, t') ∈ lazy_star p (m +:+ t').
Proof.
  revert m t. induction s as [|c s IH]; intros m t; simpl.
  - intros [= -> ->]%list_elem_of_singleton. rewrite app_empty_l.
    destruct t'; apply elem_of_cons; by left.
  - intros [[= -> ->]|H]%elem_of_cons.
    { rewrite app_empty_l. destruct t'; apply elem_of_cons; by left. }
    destruct (p c) eqn:Hp; [|by apply elem_of_nil in H].
    apply list_elem_of_fmap in H as [[m' t0] [[= -> ->] Hin]]. simpl.
    rewrite Hp. apply elem_of_cons. right.
    apply list_elem_of_fmap. exists (m', t'). split; [done|]. by eapply IH.
Qed.

(** A match depends on the matched text only, not on what follows. *)
Lemma exec_frame r s m t t' : (m, t) ∈ exec r s -> (m, t') ∈ exec r (m +:+ t').
Proof.
  revert s m t t'.
  induction r as [p| |r1 IH1 r2 IH2|r1 IH1 r2 IH2|r1 IH1|p];
    intros s m t t'; simpl.
  - destruct s as [|c s]; [by intros ?%elem_of_nil|].
    destruct (p c) eqn:Hp; [|by intros ?%elem_of_nil].
    intros [= -> ->]%list_elem_of_singleton. rewrite ?app_cons. simpl.
    rewrite Hp. by apply list_elem_of_singleton.
  - intros [= -> ->]%list_elem_of_singleton. by apply list_elem_of_singleton.
  - intros [[m1 t1] [H2 H1]]%list_elem_of_bind.
    apply list_elem_of_fmap in H2 as [[m2 t2] [[= -> ->] H2]]. simpl in *.
    apply list_elem_of_bind. exists (m1, m2 +:+ t'). split.
    + apply list_elem_of_fmap. exists (m2, t'). split; [done|]. simpl.
      by eapply IH2.
    + rewrite app_assoc_str. by eapply IH1.
  - intros [H|H]%elem_of_app; apply elem_of_app; [left|right]; eauto.
  - intros [H|[= -> ->]%list_elem_of_singleton]%elem_of_app; apply elem_of_app.
    + left. eauto.
    + right. by apply list_elem_of_singleton.
  - apply lazy_star_frame.
Qed.

(** Every string [FindAllString] returns is matched by the pattern, unless
    it is the empty string. *)
Lemma find_all_matches fuel r s x :
  x ∈ find_all fuel r s -> x <> "" -> (x, "") ∈ exec r x.
Proof.
  intros Hin Hne. revert s Hin.
  induction fuel as [|fuel IH]; intros s; simpl; [by intros ?%elem_of_nil|].
  destruct (match_here r s) as [[m t]|] eqn:Hm.
  - apply match_here_elem in Hm. destruct m as [|c m].
    + destruct s as [|d s'].
      * by intros ->%list_elem_of_singleton.
      * intros [->|H]%elem_of_cons; [done|eauto].
    + intros [->|H]%elem_of_cons; [|eauto].
      rewrite <-(app_empty_r (String c m)) at 2. by eapply exec_frame.
  - destruct s as [|c t]; [by intros ?%elem_of_nil|]. eauto.
Qed.

End MatchFacts.

Section ExtractorFacts.

Implicit Types (ms : list string) (x : string).

Lemma favicon_re_nonempty s m t : match_here favicon_re s = Some (m, t) -> m <> "".
Proof.
  intros H%match_here_elem%exec_min_len ->.
  vm_compute in H. lia.
Qed.

Lemma FindAllString_favicon_nonempty content :
  Forall (fun m => m <> "") (FindAllString favicon_re content).
Proof. apply find_all_nonempty. vm_compute. lia. Qed.

Lemma dedup_loop_snoc ms x :
  dedup_loop (ms ++ [x]) = dedup_step (dedup_loop ms) x.
Proof. apply foldl_snoc. Qed.

(** The map [seen] holds exactly the matches handled so far. *)
Lemma dedup_loop_seen ms : (dedup_loop ms).1 = list_to_set ms.
Proof.
  induction ms as [|x ms IH] using rev_ind; [done|].
  rewrite dedup_loop_snoc, list_to_set_snoc_L. unfold dedup_step.
  case_decide as Hx; simpl; rewrite IH in Hx |- *; apply set_eq; intros y;
    rewrite !elem_of_union, elem_of_singleton; [|tauto].
  split; [tauto|]. by intros [?| ->].
Qed.

Lemma dedup_links_snoc ms x :
  (dedup_loop (ms ++ [x])).2
  = (dedup_loop ms).2 ++ (if decide (x ∈ ms) then [] else [x]).
Proof.
  rewrite dedup_loop_snoc. unfold dedup_step.
  rewrite dedup_loop_seen.
  destruct (decide (x ∈ list_to_set ms)) as [Hx|Hx], (decide (x ∈ ms)) as [Hy|Hy];
    simpl; rewrite ?app_nil_r; try done.
  - by apply elem_of_list_to_set in Hx.
  - by apply (elem_of_list_to_set (C:=gset string)) in Hy.
Qed.

Lemma dedup_elem ms x : x ∈ (dedup_loop ms).2 <-> x ∈ ms.
Proof.
  induction ms as [|y ms IH] using rev_ind; [reflexivity|].
  rewrite dedup_links_snoc, !elem_of_app, IH.
  case_decide; [|done].
  rewrite elem_of_nil, list_elem_of_singleton.
  split; [tauto|]. intros [?| ->]; by left.
Qed.

Lemma dedup_elem_1 ms x : x ∈ (dedup_loop ms).2 -> x ∈ ms.
Proof. apply dedup_elem. Qed.

Lemma dedup_NoDup ms : NoDup (dedup_loop ms).2.
Proof.
  induction ms as [|y ms IH] using rev_ind; [constructor|].
  rewrite dedup_links_snoc. case_decide as Hy; [by rewrite app_nil_r|].
  apply NoDup_app. split_and!; [done| |apply NoDup_singleton].
  intros x Hx%dedup_elem_1 Hxy%list_elem_of_singleton. by subst.
Qed.

Lemma dedup_length ms :
  length (dedup_loop ms).2 = size (list_to_set ms : gset string).
Proof.
  rewrite <-(size_list_to_set (C:=gset string)) by apply dedup_NoDup.
  f_equal. apply set_eq. intros x.
  by rewrite !elem_of_list_to_set, dedup_elem.
Qed.

(** The entry at index [i] is the match whose first occurrence has
    exactly [i] distinct matches before it. *)
Lemma dedup_first_seen ms i x :
  (dedup_loop ms).2 !! i = Some x ->
  exists j, ms !! j = Some x /\ (x ∉ take j ms)
            /\ size (list_to_set (take j ms) : gset string) = i.
Proof.
  revert i. induction ms as [|y ms IH] using rev_ind; intros i; [done|].
  assert (forall j, ms !! j = Some x -> x ∉ take j ms ->
            size (list_to_set (take j ms) : gset string) = i ->
            exists j, (ms ++ [y]) !! j = Some x /\ (x ∉ take j (ms ++ [y]))
              /\ size (list_to_set (take j (ms ++ [y])) : gset string) = i)
    as Hold.
  { intros j Hj Hx Hs. exists j.
    pose proof (lookup_lt_Some _ _ _ Hj).
    rewrite lookup_app_l, take_app_le by lia. done. }
  rewrite dedup_links_snoc. case_decide as Hy.
  - rewrite app_nil_r. intros (j & ? & ? & ?)%IH. eauto.
  - intros [H|[Hi H]]%lookup_app_Some.
    + apply IH in H as (j & ? & ? & ?). eauto.
    + destruct (i - length (dedup_loop ms).2) eqn:E; [|done].
      injection H as <-. exists (length ms).
      rewrite take_app_length, list_lookup_middle by done.
      split_and!; [done..|]. rewrite <-dedup_length. lia.
Qed.

End ExtractorFacts.

(** C4: with the matches of the favicon pattern found in the page text
    (each is a piece of the text that the pattern matches), the extractor
    returns every distinct match once: as many entries as there are
    distinct matches, however often they repeat, ordered by first
    appearance, and no entry at all when nothing matches. *)
Theorem extractFaviconLinks_distinct_in_first_seen_order (content : string) :
  let matches := FindAllString favicon_re content in
  let links := extractFaviconLinks content in
  NoDup links
  /\ (forall x, x ∈ links <-> x ∈ matches)
  /\ length links = size (list_to_set matches : gset string)
  /\ (forall i x, links !! i = Some x ->
        exists j, matches !! j = Some x /\ (x ∉ take j matches)
                  /\ size (list_to_set (take j matches) : gset string) = i)
  /\ (forall x, x ∈ links ->
        (x, "") ∈ exec favicon_re x
        /\ exists pre post, content = pre +:+ x +:+ post)
  /\ (matches = [] <-> links = [])
  /\ extractFaviconLinks
       "a http://x.com/y/favicon.ico b /favicon.ico c favicon.ico d /FAVICON.ICO e /favicon.ico f http://x.com/y/favicon.ico"
     = ["http://x.com/y/favicon.ico"; "/favicon.ico"; "favicon.ico"; "/FAVICON.ICO"]
  /\ extractFaviconLinks "<html><body>no icon here</body></html>" = [].
Proof.
  intros matches links. unfold links, extractFaviconLinks. fold matches.
  split_and!.
  - apply dedup_NoDup.
  - apply dedup_elem.
  - apply dedup_length.
  - apply dedup_first_seen.
  - intros x Hx%dedup_elem_1. split.
    + eapply find_all_matches; [done|].
      pose proof (FindAllString_favicon_nonempty content) as Hall.
      rewrite Forall_forall in Hall. by apply Hall.
    + by eapply find_all_substring.
  - split; [by intros ->|].
    intros Hnil. apply elem_of_nil_inv. intros x Hx.
    assert (x ∈ (dedup_loop matches).2) as Hin by by apply dedup_elem.
    rewrite Hnil in Hin. by apply elem_of_nil in Hin.
  - by vm_compute.
  - by vm_compute.
Qed.

(** * Properties of the Page Fetcher *)

(** C5, as the specification words it, fails: a response with status 204
    is a success (2xx) response, yet [fetchHTML] returns a status error
    for it and not the body. *)
Lemma fetchHTML_204_is_status_error :
  (200 <= 204 < 300)%Z
  /\ (fetchHTML (const_env (GetResp 204 (body_of "ok")) (OpenErr "")) "http://a.com"
        start).1
     = Err (StatusError 204).
Proof. split; [lia|reflexivity]. Qed.

(** C5, amended: [fetchHTML] returns the full response body exactly when
    the status code is 200 and the body is read to its end; it returns a
    status error carrying the code exactly when the code is not 200
    (other 2xx codes included); a failed request or a failed read of the
    body gives the transport error. *)
Theorem fetchHTML_outcomes (env : Env) (url : string) (st : State) :
  let r := (fetchHTML env url st).1 in
  let resp := http_Get env (requests st) url in
  (forall html, r = Ok html <->
     exists body, resp = GetResp 200 body /\ read_err body = None /\ data body = html)
  /\ (forall code, r = Err (StatusError code) <->
        exists body, resp = GetResp code body /\ code <> 200%Z)
  /\ (forall msg, r = Err (TransportError msg) <->
        resp = GetErr msg
        \/ exists body, resp = GetResp 200 body /\ read_err body = Some msg).
Proof.
  intros r resp. subst r. unfold fetchHTML, http_get. fold resp.
  assert (forall (P Q : Prop), (P -> Q) -> (Q -> P) -> (P <-> Q)) as iffI by tauto.
  destruct resp as [e|code [text rerr]]; simpl;
    [|unfold StatusOK; destruct (Z.eqb_spec code 200) as [->|Hne]; simpl;
      [destruct rerr as [e|]|]];
    split_and!; intros x; apply iffI; intros H;
    repeat match type of H with
      | _ \/ _ => destruct H as [H|H]
      | exists _, _ => destruct H as [? H]
      | _ /\ _ => let H' := fresh in destruct H as [H' H]
      end;
    simplify_eq/=;
    first [done | by eexists | by left | right; by eexists].
Qed.

(** * Properties of the Result Store *)

Section StoreFacts.

Implicit Types (t : table) (l m s : string) (st : State) (env : Env).

Lemma max_id_ge (rs : list row) (r : row) : r ∈ rs -> (id r <= max_id rs)%Z.
Proof.
  induction rs as [|r' rs IH]; [by intros ?%elem_of_nil|].
  intros [->|H]%elem_of_cons; simpl; [lia|].
  apply IH in H. lia.
Qed.

Lemma next_id_fresh t : next_id t ∉ id <$> rows t.
Proof.
  intros (r & Hid & Hr%max_id_ge)%list_elem_of_fmap.
  unfold next_id in Hid. lia.
Qed.

Lemma insert_or_ignore_present l m s t :
  l ∈ links_of t -> insert_or_ignore l m s t = t.
Proof. intros H. unfold insert_or_ignore. by rewrite decide_True. Qed.

Lemma insert_or_ignore_absent l m s t :
  l ∉ links_of t ->
  insert_or_ignore l m s t
  = {| rows := rows t ++ [{| id := next_id t; link := l; md5 := m; sha256 := s |}];
       seq := next_id t |}.
Proof. intros H. unfold insert_or_ignore. by rewrite decide_False. Qed.

Lemma insert_or_ignore_ok l m s t :
  table_ok t -> table_ok (insert_or_ignore l m s t).
Proof.
  intros [Hl Hi]. destruct (decide (l ∈ links_of t)) as [Hin|Hnin].
  - by rewrite insert_or_ignore_present.
  - rewrite insert_or_ignore_absent by done. unfold table_ok, links_of. simpl.
    rewrite !fmap_app. simpl. split; apply NoDup_app; split_and!; try done.
    + intros x Hx ->%list_elem_of_singleton. done.
    + apply NoDup_singleton.
    + intros x Hx ->%list_elem_of_singleton. by apply next_id_fresh in Hx.
    + apply NoDup_singleton.
Qed.




(** One call: the table stays a table, and is either untouched or the
    result of the insert. *)
Lemma saveToDatabase_store env l m s st t :
  store st = Some t ->
  exists t', store (saveToDatabase env l m s st).2 = Some t'
    /\ (t' = t \/ t' = insert_or_ignore l m s t).
Proof.
  intros Hst. unfold saveToDatabase, db_Exec. simpl.
  destruct (exec_fault env (execs st)); simpl; [eauto|].
  rewrite Hst. simpl. eauto.
Qed.

Lemma saveToDatabase_no_fault env l m s st t :
  store st = Some t -> exec_fault env (execs st) = None ->
  (saveToDatabase env l m s st).1 = None
  /\ store (saveToDatabase env l m s st).2 = Some (insert_or_ignore l m s t).
Proof.
  intros Hst Hf. unfold saveToDatabase, db_Exec. simpl.
  rewrite Hf, Hst. done.
Qed.


End StoreFacts.



(** * Properties of the URL list reader *)

Section TrimFacts.

Local Arguments is_space : simpl never.
Implicit Types (s sp : list ascii).

Lemma space_encodings_length sp : sp ∈ space_encodings -> 1 <= length sp <= 3.
Proof.
  revert sp. apply Forall_forall. unfold space_encodings. simpl.
  repeat (apply Forall_cons; split; [simpl; lia|]). apply Forall_nil_2.
Qed.

Lemma is_space_true sp : sp ∈ space_encodings -> is_space sp = true.
Proof. intros. by apply bool_decide_eq_true. Qed.

Lemma starts_space_sound sp s :
  sp ∈ space_encodings -> sp `prefix_of` s -> starts_space s = true.
Proof.
  intros Hin [k ->]. pose proof (space_encodings_length _ Hin) as Hlen.
  apply is_space_true in Hin.
  destruct sp as [|a [|b [|c [|d sp]]]]; simpl in Hlen; try lia; simpl;
    rewrite Hin, ?orb_true_r; done.
Qed.

Lemma starts_space_rev_sound sp s :
  sp ∈ space_encodings -> sp `suffix_of` s -> starts_space_rev (reverse s) = true.
Proof.
  intros Hin [k ->]. pose proof (space_encodings_length _ Hin) as Hlen.
  apply is_space_true in Hin. rewrite reverse_app.
  destruct sp as [|a [|b [|c [|d sp]]]]; simpl in Hlen; try lia;
    rewrite ?reverse_cons, ?reverse_nil; simpl;
    rewrite Hin, ?orb_true_r; done.
Qed.

Lemma trim_left_unfold c t :
  trim_left (c :: t)
  = if is_space [c] then trim_left t
    else match t with
         | d :: t2 =>
             if is_space [c; d] then trim_left t2
             else match t2 with
                  | e :: t3 => if is_space [c; d; e] then trim_left t3 else c :: t
                  | [] => c :: t
                  end
         | [] => c :: t
         end.
Proof. by destruct t as [|d [|e t3]]. Qed.

Lemma trim_left_rev_unfold c t :
  trim_left_rev (c :: t)
  = if is_space [c] then trim_left_rev t
    else match t with
         | d :: t2 =>
             if is_space [d; c] then trim_left_rev t2
             else match t2 with
                  | e :: t3 =>
                      if is_space [e; d; c] then trim_left_rev t3 else c :: t
                  | [] => c :: t
                  end
         | [] => c :: t
         end.
Proof. by destruct t as [|d [|e t3]]. Qed.

Ltac by_shorter IH := eapply IH; [|reflexivity]; simpl; lia.

Lemma trim_left_no_space s : starts_space (trim_left s) = false.
Proof.
  remember (length s) as n eqn:Hn. revert s Hn.
  induction n as [n IH] using lt_wf_ind. intros s ->.
  destruct s as [|c t]; [done|]. rewrite trim_left_unfold.
  destruct (is_space [c]) eqn:E1; [by_shorter IH|].
  destruct t as [|d t2]; [by unfold starts_space; rewrite E1|].
  destruct (is_space [c; d]) eqn:E2; [by_shorter IH|].
  destruct t2 as [|e t3]; [by unfold starts_space; rewrite E1, E2|].
  destruct (is_space [c; d; e]) eqn:E3; [by_shorter IH|].
  by unfold starts_space; rewrite E1, E2, E3.
Qed.

Lemma trim_left_rev_no_space s : starts_space_rev (trim_left_rev s) = false.
Proof.
  remember (length s) as n eqn:Hn. revert s Hn.
  induction n as [n IH] using lt_wf_ind. intros s ->.
  destruct s as [|c t]; [done|]. rewrite trim_left_rev_unfold.
  destruct (is_space [c]) eqn:E1; [by_shorter IH|].
  destruct t as [|d t2]; [by unfold starts_space_rev; rewrite E1|].
  destruct (is_space [d; c]) eqn:E2; [by_shorter IH|].
  destruct t2 as [|e t3]; [by unfold starts_space_rev; rewrite E1, E2|].
  destruct (is_space [e; d; c]) eqn:E3; [by_shorter IH|].
  by unfold starts_space_rev; rewrite E1, E2, E3.
Qed.

(** Trimming only drops bytes at the front. *)
Lemma trim_left_rev_suffix s : trim_left_rev s `suffix_of` s.
Proof.
  remember (length s) as n eqn:Hn. revert s Hn.
  induction n as [n IH] using lt_wf_ind. intros s ->.
  destruct s as [|c t]; [done|]. rewrite trim_left_rev_unfold.
  destruct (is_space [c]); [apply suffix_cons_r; by_shorter IH|].
  destruct t as [|d t2]; [done|].
  destruct (is_space [d; c]); [do 2 apply suffix_cons_r; by_shorter IH|].
  destruct t2 as [|e t3]; [done|].
  destruct (is_space [e; d; c]); [do 3 apply suffix_cons_r; by_shorter IH|done].
Qed.

Lemma trim_right_prefix s : trim_right s `prefix_of` s.
Proof.
  unfold trim_right. apply prefix_suffix_reverse.
  rewrite reverse_involutive. apply trim_left_rev_suffix.
Qed.

(** The result of trimming has no white space rune at either end. *)
Lemma trim_no_space s sp :
  sp ∈ space_encodings ->
  ~ sp `prefix_of` trim_right (trim_left s)
  /\ ~ sp `suffix_of` trim_right (trim_left s).
Proof.
  intros Hin. split; intros H.
  - assert (sp `prefix_of` trim_left s) as H'
      by (etrans; [exact H|apply trim_right_prefix]).
    apply (starts_space_sound _ _ Hin) in H'.
    by rewrite trim_left_no_space in H'.
  - apply (starts_space_rev_sound _ _ Hin) in H.
    unfold trim_right in H. rewrite reverse_involutive in H.
    by rewrite trim_left_rev_no_space in H.
Qed.

Lemma bytes_of_bytes s : bytes (of_bytes s) = s.
Proof. apply String.list_ascii_of_string_of_list_ascii. Qed.

Lemma TrimSpace_no_space (x : string) sp :
  sp ∈ space_encodings ->
  ~ sp `prefix_of` bytes (TrimSpace x) /\ ~ sp `suffix_of` bytes (TrimSpace x).
Proof. unfold TrimSpace. rewrite bytes_of_bytes. apply trim_no_space. Qed.

Lemma of_bytes_bytes (x : string) : of_bytes (bytes x) = x.
Proof. apply String.string_of_list_ascii_of_string. Qed.

(** No white space encoding has a carriage return as its second or third
    byte. *)
Lemma is_space_cr_2 c : is_space [c; byte 13] = false.
Proof.
  apply bool_decide_eq_false. unfold space_encodings. simpl. intros Hin.
  repeat (apply elem_of_cons in Hin as [Heq|Hin]; [discriminate Heq|]).
  by apply elem_of_nil in Hin.
Qed.

Lemma is_space_cr_3 c d : is_space [c; d; byte 13] = false.
Proof.
  apply bool_decide_eq_false. unfold space_encodings. simpl. intros Hin.
  repeat (apply elem_of_cons in Hin as [Heq|Hin]; [discriminate Heq|]).
  by apply elem_of_nil in Hin.
Qed.

Lemma trim_left_snoc_cr s :
  trim_left (s ++ [byte 13]) = trim_left s ++ [byte 13]
  \/ (trim_left (s ++ [byte 13]) = [] /\ trim_left s = []).
Proof.
  remember (length s) as n eqn:Hn. revert s Hn.
  induction n as [n IH] using lt_wf_ind. intros s ->.
  destruct s as [|c t]; [by right|].
  rewrite <-app_comm_cons, !trim_left_unfold.
  destruct (is_space [c]); [by_shorter IH|].
  destruct t as [|d t2]; cbn [app].
  { rewrite is_space_cr_2. by left. }
  destruct (is_space [c; d]); [by_shorter IH|].
  destruct t2 as [|e t3]; cbn [app].
  { rewrite is_space_cr_3. by left. }
  destruct (is_space [c; d; e]); [by_shorter IH|by left].
Qed.

Lemma trim_right_snoc_cr s : trim_right (s ++ [byte 13]) = trim_right s.
Proof. unfold trim_right. by rewrite reverse_snoc, trim_left_rev_unfold. Qed.

(** Dropping the carriage return before trimming changes nothing: it is
    white space. *)
Lemma url_of_line_TrimSpace (line : string) : url_of_line line = TrimSpace line.
Proof.
  unfold url_of_line, dropCR.
  destruct (reverse (bytes line)) as [|c r] eqn:Hrev; [done|].
  destruct (byte_eqb c (byte 13)) eqn:Hc; [|done].
  apply byte_eqb_true in Hc as ->.
  assert (bytes line = reverse r ++ [byte 13]) as Hb.
  { by rewrite <-(reverse_involutive (bytes line)), Hrev, reverse_cons. }
  unfold TrimSpace. rewrite bytes_of_bytes, Hb. f_equal.
  destruct (trim_left_snoc_cr (reverse r)) as [->|[-> ->]]; [|done].
  apply eq_sym, trim_right_snoc_cr.
Qed.

End TrimFacts.

Section ReaderFacts.

Implicit Types (lines urls acc : list string).

Lemma scan_loop_ok lines acc :
  Forall short lines ->
  scan_loop lines None acc
  = Ok (acc ++ filter (fun u => u <> "") (url_of_line <$> lines)).
Proof.
  intros Hall. revert acc.
  induction Hall as [|line lines Hs _ IH]; intros acc; simpl.
  { by rewrite app_nil_r. }
  unfold short in Hs. destruct (N.leb_spec MaxScanTokenSize
    (N.of_nat (String.length line))) as [Hle|_]; [lia|].
  rewrite IH, filter_cons.
  destruct (decide (url_of_line line = "")) as [He|Hne].
  - by rewrite decide_False by (by intros ?).
  - rewrite decide_True by done. by rewrite <-app_assoc.
Qed.

Lemma scan_loop_inv lines rerr acc urls :
  scan_loop lines rerr acc = Ok urls ->
  rerr = None /\ Forall short lines
  /\ urls = acc ++ filter (fun u => u <> "") (url_of_line <$> lines).
Proof.
  revert acc. induction lines as [|line lines IH]; intros acc; simpl.
  { destruct rerr; [done|]. intros [= ->]. by rewrite app_nil_r. }
  destruct (N.leb_spec MaxScanTokenSize (N.of_nat (String.length line)))
    as [|Hlt]; [done|].
  intros (-> & Hall & ->)%IH. split_and!; [done|by constructor|].
  rewrite filter_cons.
  destruct (decide (url_of_line line = "")) as [He|Hne].
  - by rewrite decide_False by (by intros ?).
  - rewrite decide_True by done. by rewrite <-app_assoc.
Qed.


Lemma url_of_line_fmap lines : url_of_line <$> lines = TrimSpace <$> lines.
Proof. apply list_fmap_ext. intros _ line _. apply url_of_line_TrimSpace. Qed.

End ReaderFacts.




(** C10: every URL that [readURLsFromFile] returns is non-empty and has
    no white space at its start or end, and the URLs are the non-blank
    trimmed lines of the file in the order of the lines. *)
Theorem readURLsFromFile_urls_trimmed_in_order
    (env : Env) (filename : string) (st : State) (urls : list string) :
  (readURLsFromFile env filename st).1 = Ok urls ->
  Forall (fun u => u <> ""
            /\ forall sp, sp ∈ space_encodings ->
                 ~ sp `prefix_of` bytes u /\ ~ sp `suffix_of` bytes u) urls
  /\ exists content,
       os_Open env filename = Opened content None
       /\ urls = filter (fun u => u <> "") (TrimSpace <$> split_lines content)
       /\ urls `sublist_of` (TrimSpace <$> split_lines content).
Proof.
  unfold readURLsFromFile.
  destruct (os_Open env filename) as [msg|content rerr]; simpl; [done|].
  intros (-> & _ & ->)%scan_loop_inv. simpl. rewrite url_of_line_fmap. split.
  - apply Forall_forall. intros u [Hu Hin]%list_elem_of_filter. split; [done|].
    apply list_elem_of_fmap in Hin as (line & -> & _).
    intros sp Hsp. by apply TrimSpace_no_space.
  - exists content. split_and!; [done..|]. apply sublist_filter.
Qed.

Lemma readURLsFromFile_urls_trimmed_in_order_witness :
  let content := "  http://a.test" +:+ String (byte 13) nl +:+ " " +:+ nl
                 +:+ "http://b.test   " in
  let env := const_env (GetErr "") (Opened content None) in
  (readURLsFromFile env "urls.txt" start).1 = Ok ["http://a.test"; "http://b.test"]
  /\ Forall (fun u => u <> "") ["http://a.test"; "http://b.test"].
Proof.
  intros content env.
  assert ((readURLsFromFile env "urls.txt" start).1
          = Ok ["http://a.test"; "http://b.test"]) as Hrun by by vm_compute.
  split; [exact Hrun|].
  destruct (readURLsFromFile_urls_trimmed_in_order env "urls.txt" start _ Hrun)
    as [Hall _].
  eapply Forall_impl; [exact Hall|]. by intros u [Hu _].
Defined.

(** * Properties of the Orchestrator *)

Section OrchestratorFacts.

(** The environment is arbitrary and fixed for a run. *)
Context (env : Env).
Implicit Types (st : State) (evs : list event).

Lemma trace_emit e st : trace (emit e st) = trace st ++ [e].
Proof. reflexivity. Qed.

Lemma ext_emit e st : trace st `prefix_of` trace (emit e st).
Proof. by exists [e]. Qed.

Lemma http_get_trace url st :
  trace (http_get env url st).2 = trace st ++ [EvHttpGet url].
Proof. reflexivity. Qed.

Lemma fetchHTML_trace url st :
  trace (fetchHTML env url st).2 = trace st ++ [EvHttpGet url].
Proof.
  unfold fetchHTML, http_get.
  destruct (http_Get env (requests st) url) as [|code [text rerr]]; simpl;
    [done|].
  destruct (negb _); [done|]. by destruct rerr.
Qed.

Lemma calculateHashes_trace url st :
  trace st `prefix_of` trace (calculateHashes env url st).2.
Proof.
  unfold calculateHashes, http_get, copy_all.
  destruct (http_Get env (requests st) url) as [|c1 [t1 [|]]]; simpl;
    try (by eexists).
  destruct (http_Get env (S (requests st)) url) as [|c2 [t2 [|]]]; simpl;
    rewrite <-app_assoc; by eexists.
Qed.

Lemma db_Exec_trace q st : trace (db_Exec env q st).2 = trace st ++ [EvExec q].
Proof.
  unfold db_Exec. destruct (exec_fault env (execs st)); [done|].
  destruct q; simpl; [done|]. by destruct (store st).
Qed.

(** One link never stops the loop, whether digesting or storing fails. *)
Lemma process_link_returns base link st :
  link <> "" ->
  exists st', process_link env base link st = Ret st'
              /\ trace st `prefix_of` trace st'.
Proof.
  intros Hne. unfold process_link.
  destruct (resolveLink_returns base link Hne) as [full ->].
  pose proof (calculateHashes_trace full st) as Hh.
  destruct (calculateHashes env full st) as [[[m s]|e] st1]; simpl in Hh.
  - match goal with |- context [saveToDatabase _ _ _ _ ?x] => set (st2 := x) end.
    assert (trace st `prefix_of` trace st2) as H2
      by (etrans; [exact Hh|apply ext_emit]).
    pose proof (db_Exec_trace (InsertOrIgnore full m s) st2) as Hs.
    unfold saveToDatabase.
    destruct (db_Exec env _ st2) as [[e|] st3]; simpl in Hs.
    + eexists. split; [reflexivity|]. etrans; [exact H2|].
      etrans; [|apply ext_emit]. rewrite Hs. by apply prefix_app_r.
    + eexists. split; [reflexivity|]. etrans; [exact H2|].
      rewrite Hs. by apply prefix_app_r.
  - eexists. split; [reflexivity|]. etrans; [exact Hh|apply ext_emit].
Qed.

Lemma process_links_returns base links st :
  Forall (fun l => l <> "") links ->
  exists st', process_links env base links st = Ret st'
              /\ trace st `prefix_of` trace st'.
Proof.
  intros Hall. revert st. induction Hall as [|link links Hne _ IH]; intros st.
  { by exists st. }
  simpl. destruct (process_link_returns base link st Hne) as (st1 & -> & H1).
  destruct (IH st1) as (st' & -> & H2). exists st'. split; [done|]. by etrans.
Qed.

(** One Target URL never stops the run, and always shows its progress
    line first. *)
Lemma process_url_returns u st :
  exists st' rest, process_url env u st = Ret st'
                   /\ trace st' = trace st ++ progress_line u :: rest.
Proof.
  unfold process_url.
  pose proof (fetchHTML_trace u (Println ("Processing URL: " +:+ u) st)) as Hf.
  destruct (fetchHTML env u _) as [[html|e] st1]; simpl in Hf.
  - case_decide.
    + do 2 eexists. split; [reflexivity|]. unfold Println, progress_line.
      rewrite trace_emit, Hf, <-!app_assoc. reflexivity.
    + destruct (process_links_returns u (extractFaviconLinks html) st1)
        as (st' & -> & [k Hk]).
      { unfold extractFaviconLinks. apply Forall_forall.
        intros x Hx%dedup_elem_1.
        pose proof (FindAllString_favicon_nonempty html) as Hall.
        rewrite Forall_forall in Hall. by apply Hall. }
      do 2 eexists. split; [reflexivity|]. unfold progress_line.
      rewrite Hk, Hf, <-!app_assoc. reflexivity.
  - do 2 eexists. split; [reflexivity|]. unfold Eprint, progress_line.
    rewrite trace_emit, Hf, <-!app_assoc. reflexivity.
Qed.

Lemma process_urls_returns urls st :
  exists st' evs, process_urls env urls st = Ret st'
                  /\ trace st' = trace st ++ evs
                  /\ one_run_per_url urls evs.
Proof.
  revert st. induction urls as [|u urls IH]; intros st.
  { exists st, []. split_and!; [done|by rewrite app_nil_r|].
    exists []. split; [done|constructor]. }
  simpl. destruct (process_url_returns u st) as (st1 & rest & -> & H1).
  destruct (IH st1) as (st' & evs & -> & H2 & runs & -> & Hruns).
  exists st', ((progress_line u :: rest) ++ concat runs).
  split_and!; [done| |].
  - by rewrite H2, H1, <-app_assoc.
  - exists ((progress_line u :: rest) :: runs). split; [done|].
    constructor; [by exists rest|done].
Qed.

End OrchestratorFacts.

(** C6: no failure on one item aborts the run.  Whatever the network and
    the store answer, the loop over the Target URLs completes and every
    URL of the list gets its progress line, in order.  A failed page
    fetch, a failed digest and a failed insert are each written to
    standard error, and the loop goes on with the next URL or the next
    link.  [main] always returns, and once the list is read and the table
    is set up it handles every URL and closes the store. *)
Theorem failures_never_abort_the_run (env : Env) (urls : list string) (st : State) :
  (exists st' evs,
      process_urls env urls st = Ret st'
      /\ trace st' = trace st ++ evs
      /\ one_run_per_url urls evs)
  /\ (forall u rest e st1,
        fetchHTML env u (emit (progress_line u) st) = (Err e, st1) ->
        process_urls env (u :: rest) st
        = process_urls env rest
            (emit (Stderr ("Error fetching HTML: " +:+ Error e +:+ nl)) st1))
  /\ (forall base link rest full e st1,
        resolveLink base link = Ret full ->
        calculateHashes env full st = (Err e, st1) ->
        process_links env base (link :: rest) st
        = process_links env base rest
            (emit (Stderr ("Error calculating hash for " +:+ full +:+ ": "
                           +:+ Error e +:+ nl)) st1))
  /\ (forall base link rest full m s st1 e st2,
        resolveLink base link = Ret full ->
        calculateHashes env full st = (Ok (m, s), st1) ->
        saveToDatabase env full m s
          (Println ("Favicon: " +:+ full +:+ " | MD5: " +:+ m
                    +:+ " | SHA256: " +:+ s) st1) = (Some e, st2) ->
        process_links env base (link :: rest) st
        = process_links env base rest
            (emit (Stderr ("Error saving to database for " +:+ link +:+ ": "
                           +:+ Error e +:+ nl)) st2))
  /\ (forall base html,
        exists st', process_links env base (extractFaviconLinks html) st = Ret st')
  /\ (forall flag, exists st', main env flag st = Ret st')
  /\ (forall filename st1,
        filename <> "" ->
        readURLsFromFile env filename st = (Ok urls, st1) ->
        sql_Open env = None ->
        exec_fault env (execs st1) = None ->
        exists st' evs,
          main env (Some filename) st = Ret st'
          /\ trace st'
             = trace st1 ++ [EvOpenDb; EvExec CreateTableIfNotExists] ++ evs
               ++ [EvCloseDb]
          /\ one_run_per_url urls evs).
Proof.
  split_and!.
  - apply process_urls_returns.
  - intros u rest e st1 Hf. simpl. unfold process_url, Println.
    fold (progress_line u). by rewrite Hf.
  - intros base link rest full e st1 Hr Hh. simpl. unfold process_link.
    by rewrite Hr, Hh.
  - intros base link rest full m s st1 e st2 Hr Hh Hs. simpl.
    unfold process_link. by rewrite Hr, Hh, Hs.
  - intros base html.
    destruct (process_links_returns env base (extractFaviconLinks html) st)
      as (st' & -> & _); [|by eexists].
    unfold extractFaviconLinks. apply Forall_forall. intros x Hx%dedup_elem_1.
    pose proof (FindAllString_favicon_nonempty html) as Hall.
    rewrite Forall_forall in Hall. by apply Hall.
  - intros flag. unfold main. case_decide; [by eexists|].
    destruct (readURLsFromFile env _ st) as [[us|e] st1]; [|by eexists].
    destruct (sql_Open env); [by eexists|].
    destruct (db_Exec env _ _) as [[e|] st2]; simpl; [by eexists|].
    destruct (process_urls_returns env us st2) as (st' & evs & -> & _).
    by eexists.
  - intros filename st1 Hne Hread Hopen Hfault. unfold main. simpl.
    rewrite decide_False by done. rewrite Hread, Hopen.
    unfold db_Exec. simpl. rewrite Hfault. simpl.
    match goal with |- context [process_urls env urls ?x] => set (st2 := x) end.
    destruct (process_urls_returns env urls st2) as (st' & evs & -> & Ht & Hruns).
    exists (emit EvCloseDb st'), evs. split_and!; [done| |done].
    rewrite trace_emit, Ht. subst st2. simpl. by rewrite <-!app_assoc.
Qed.

(** The failure scenario and the end-to-end scenario of the specification
    in one run: the first page answers 404, which is reported; the second
    page is still handled and its favicon recorded. *)
Example main_goes_on_after_a_404 :
  main two_pages_env (Some "urls.txt") start
  = Ret {| requests := 4; execs := 2;
           store := Some {| rows := [{| id := 1;
                                        link := "http://example.test/favicon.ico";
                                        md5 := "md5:ICO";
                                        sha256 := "sha256:ICO" |}];
                            seq := 1 |};
           trace :=
             [ EvOpenFile "urls.txt"; EvOpenDb; EvExec CreateTableIfNotExists;
               Stdout ("Processing URL: http://bad.test" +:+ nl);
               EvHttpGet "http://bad.test";
               Stderr ("Error fetching HTML: error: status code 404" +:+ nl);
               Stdout ("Processing URL: http://example.test" +:+ nl);
               EvHttpGet "http://example.test";
               EvHttpGet "http://example.test/favicon.ico";
               EvHttpGet "http://example.test/favicon.ico";
               Stdout ("Favicon: http://example.test/favicon.ico | MD5: md5:ICO | SHA256: sha256:ICO"
                       +:+ nl);
               EvExec (InsertOrIgnore "http://example.test/favicon.ico"
                         "md5:ICO" "sha256:ICO");
               EvCloseDb ] |}.
Proof. by vm_compute. Qed.

(** C8: without the file flag, [main] prints the usage line and returns:
    that line is its only effect; no file is opened, no request made, no
    statement executed, and the store is as before.  The same holds when
    the flag is given the empty string. *)
Theorem main_without_file_flag (env : Env) (st : State) :
  let usage := Stdout ("Please provide a filename using the -file flag." +:+ nl) in
  main env None st = Ret (emit usage st)
  /\ main env (Some "") st = Ret (emit usage st)
  /\ trace (emit usage st) = trace st ++ [usage]
  /\ store (emit usage st) = store st
  /\ requests (emit usage st) = requests st
  /\ execs (emit usage st) = execs st.
Proof. by split_and!. Qed.

(** * Further properties: the network steps *)

(** X1: [calculateHashes] returns a pair of digests exactly when both of
    its requests are answered and both bodies are read to their end,
    whatever the two status codes; the first digest is of the bytes of the
    first response and the second digest of the bytes of the second. *)
Theorem calculateHashes_outcome (env : Env) (url : string) (st : State)
    (m s : string) :
  (calculateHashes env url st).1 = Ok (m, s) <->
  exists c1 b1 c2 b2,
    http_Get env (requests st) url = GetResp c1 b1
    /\ read_err b1 = None
    /\ http_Get env (S (requests st)) url = GetResp c2 b2
    /\ read_err b2 = None
    /\ m = md5_hex env (data b1)
    /\ s = sha256_hex env (data b2).
Proof.
  unfold calculateHashes, http_get, copy_all. simpl.
  destruct (http_Get env (requests st) url) as [e1|c1 [d1 [r1|]]]; simpl;
    try (split; [done|by intros (? & ? & ? & ? & ? & ? & _)]).
  { split; [done|]. by intros (? & ? & ? & ? & [= <- <-] & ? & _). }
  destruct (http_Get env (S (requests st)) url) as [e2|c2 [d2 [r2|]]]; simpl.
  - split; [done|]. by intros (? & ? & ? & ? & _ & _ & ? & _).
  - split; [done|]. by intros (? & ? & ? & ? & _ & _ & [= <- <-] & ? & _).
  - split.
    + intros [= <- <-]. by exists c1, {| data := d1; read_err := None |},
        c2, {| data := d2; read_err := None |}.
    + by intros (? & ? & ? & ? & [= <- <-] & _ & [= <- <-] & _ & -> & ->).
Qed.


(** * Further properties: the resolver *)

Section PrefixFacts.

Lemma prefix_append (p a b : string) :
  String.prefix p a = true -> String.prefix p (a +:+ b) = true.
Proof.
  revert p. induction a as [|d a IH]; intros p.
  - destruct p; [|done]. intros _. rewrite app_empty_l. by destruct b.
  - rewrite app_cons. destruct p as [|c p]; simpl; [done|].
    destruct (Ascii.ascii_dec c d); [apply IH|done].
Qed.

Lemma HasPrefix_append (a b p : string) :
  HasPrefix a p = true -> HasPrefix (a +:+ b) p = true.
Proof. apply prefix_append. Qed.

Lemma resolveLink_absolute (base full : string) :
  HasPrefix full "http://" = true \/ HasPrefix full "https://" = true ->
  resolveLink base full = Ret full.
Proof.
  unfold resolveLink. intros [-> | ->]; [done|]. by rewrite orb_true_r.
Qed.

End PrefixFacts.

(** X3: against a base URL that starts with http:// or https://, the
    result of [resolveLink] for a non-empty reference starts with one of
    the two schemes as well, and resolving the result again, against any
    base, returns it unchanged. *)
Theorem resolveLink_result_is_stable (base link : string) :
  HasPrefix base "http://" = true \/ HasPrefix base "https://" = true ->
  link <> "" ->
  exists full,
    resolveLink base link = Ret full
    /\ (HasPrefix full "http://" = true \/ HasPrefix full "https://" = true)
    /\ forall base', resolveLink base' full = Ret full.
Proof.
  intros Hbase Hne.
  assert (forall rest, HasPrefix (base +:+ rest) "http://" = true
                       \/ HasPrefix (base +:+ rest) "https://" = true) as Habs.
  { intros rest. destruct Hbase; [left|right]; by apply HasPrefix_append. }
  unfold resolveLink at 1.
  destruct (HasPrefix link "http://" || HasPrefix link "https://") eqn:E.
  - apply orb_true_iff in E. exists link. split_and!; [done..|].
    intros base'. by apply resolveLink_absolute.
  - destruct link as [|c t]; [done|]. simpl.
    destruct (byte_eqb c "/"); eexists; (split_and!; [done|apply Habs|]);
      intros base'; apply resolveLink_absolute, Habs.
Qed.

Lemma resolveLink_result_is_stable_witness :
  (HasPrefix "http://a.com" "http://" = true
   \/ HasPrefix "http://a.com" "https://" = true)
  /\ "favicon.ico" <> ""
  /\ exists full,
       resolveLink "http://a.com" "favicon.ico" = Ret full
       /\ resolveLink "http://b.org/dir" full = Ret full.
Proof.
  assert (HasPrefix "http://a.com" "http://" = true
          \/ HasPrefix "http://a.com" "https://" = true) as Hbase by by left.
  assert ("favicon.ico" <> "") as Hne by done.
  split; [exact Hbase|]. split; [exact Hne|].
  destruct (resolveLink_result_is_stable "http://a.com" "favicon.ico" Hbase Hne)
    as (full & H1 & _ & H2).
  exists full. split; [exact H1|apply H2].
Defined.

(** * Further properties: error values *)

(** X4: the message of a status error determines the status code: two
    status errors with the same message carry the same code. *)
Theorem StatusError_message_determines_code (a b : Z) :
  Error (StatusError a) = Error (StatusError b) <-> a = b.
Proof.
  split; [|by intros ->]. simpl. intros H%(inj (String.app _)).
  unfold itoa in H. apply DecimalZ.to_int_inj.
  assert (forall z, DecimalString.NilZero.int_of_string
            (DecimalString.NilZero.string_of_int (Z.to_int z))
          = Some (Z.to_int z)) as Hrt.
  { intros z. apply DecimalString.NilZero.isi; destruct z as [|p|p]; simpl;
      try done; intros [= Hp]; by apply DecimalPos.Unsigned.to_uint_nonnil in Hp. }
  pose proof (Hrt a) as Ha. rewrite H, Hrt in Ha. by injection Ha.
Qed.

(** * Further properties: the extractor *)

Section PatternFacts.

Implicit Types (r : regex) (s m t x : string) (q : ascii -> bool).

Lemma bytes_app (a b : string) : bytes (a +:+ b) = bytes a ++ bytes b.
Proof. induction a as [|c a IH]; [done|]. rewrite app_cons. simpl. by rewrite <-IH. Qed.

Lemma exec_Cat_inv r1 r2 s m t :
  (m, t) ∈ exec (Cat r1 r2) s ->
  exists m1 t1 m2, m = m1 +:+ m2 /\ (m1, t1) ∈ exec r1 s /\ (m2, t) ∈ exec r2 t1.
Proof.
  simpl. intros [[m1 t1] [H2 H1]]%list_elem_of_bind.
  apply list_elem_of_fmap in H2 as [[m2 t2] [[= -> ->] H2]]. by exists m1, t1, m2.
Qed.

Lemma exec_Alt_inv r1 r2 s m t :
  (m, t) ∈ exec (Alt r1 r2) s -> (m, t) ∈ exec r1 s \/ (m, t) ∈ exec r2 s.
Proof. simpl. apply elem_of_app. Qed.

Lemma lazy_star_within q p s m t :
  (forall c, p c = true -> q c = true) ->
  (m, t) ∈ lazy_star p s -> Forall (fun c => q c = true) (bytes m).
Proof.
  intros Hp. revert m t. induction s as [|c s IH]; intros m t; simpl.
  - by intros [= -> ->]%list_elem_of_singleton.
  - intros [[= -> ->]|H]%elem_of_cons; [done|].
    destruct (p c) eqn:Hc; [|by apply elem_of_nil in H].
    apply list_elem_of_fmap in H as [[m' t'] [[= -> ->] Hin]]. simpl.
    constructor; [by apply Hp|by eapply IH].
Qed.

(** A match only has bytes that the classes of the pattern accept. *)
Lemma exec_within q r s m t :
  bytes_within q r -> (m, t) ∈ exec r s -> Forall (fun c => q c = true) (bytes m).
Proof.
  revert s m t. induction r as [p| |r1 IH1 r2 IH2|r1 IH1 r2 IH2|r1 IH1|p];
    intros s m t Hq.
  - simpl. destruct s as [|c s]; [by intros ?%elem_of_nil|].
    destruct (p c) eqn:Hc; [|by intros ?%elem_of_nil].
    intros [= -> ->]%list_elem_of_singleton. constructor; [by apply Hq|done].
  - by intros [= -> ->]%list_elem_of_singleton.
  - destruct Hq as [Hq1 Hq2]. intros (m1 & t1 & m2 & -> & H1 & H2)%exec_Cat_inv.
    rewrite bytes_app. apply Forall_app. split; eauto.
  - destruct Hq as [Hq1 Hq2]. intros [H|H]%exec_Alt_inv; eauto.
  - simpl in *. intros [H|[= -> ->]%list_elem_of_singleton]%elem_of_app; eauto.
  - simpl in *. by apply lazy_star_within.
Qed.

Lemma not_quote_space_to_lower d :
  not_quote_space (to_lower d) = not_quote_space d.
Proof. by destruct d as [[] [] [] [] [] [] [] []]. Qed.

Lemma lit_within c : not_quote_space c = true -> bytes_within not_quote_space (lit c).
Proof. intros Hc d Hd. by apply byte_eqb_true in Hd as <-. Qed.

Lemma fold_lit_within c :
  not_quote_space c = true -> bytes_within not_quote_space (fold_lit c).
Proof.
  intros Hc.
  assert (forall d, byte_eqb (to_lower d) (to_lower c) = true ->
                    not_quote_space d = true) as Hcases.
  { intros d Hd%byte_eqb_true.
    by rewrite <-not_quote_space_to_lower, Hd, not_quote_space_to_lower. }
  unfold fold_lit.
  destruct (byte_eqb (to_lower c) "k"); [|destruct (byte_eqb (to_lower c) "s");
    [|destruct (is_lower (to_lower c))]].
  - split; [exact Hcases|]. repeat split; by apply lit_within.
  - split; [exact Hcases|]. repeat split; by apply lit_within.
  - exact Hcases.
  - by apply lit_within.
Qed.

Lemma fold_str_within w :
  Forall (fun c => not_quote_space c = true) (bytes w) ->
  bytes_within not_quote_space (fold_str w).
Proof.
  induction w as [|c w IH]; [done|]. intros [Hc Hw]%Forall_cons.
  split; [by apply fold_lit_within|by apply IH].
Qed.

Lemma favicon_re_within : bytes_within not_quote_space favicon_re.
Proof.
  assert (forall w, forallb not_quote_space (bytes w) = true ->
                    bytes_within not_quote_space (fold_str w)) as Hw.
  { intros w Hall. apply fold_str_within, Forall_forall. intros c Hc.
    rewrite forallb_forall in Hall. by apply Hall, list_elem_of_In. }
  unfold favicon_re. cbn [bytes_within]. split_and!.
  - by apply Hw.
  - by apply fold_lit_within.
  - by apply Hw.
  - done.
  - by apply Hw.
  - by apply Hw.
  - by apply Hw.
Qed.

(** Under [(?i)], a letter other than k and s matches one byte, which is
    the letter in one of its two cases. *)
Lemma fold_lit_plain c s m t :
  byte_eqb (to_lower c) "k" = false ->
  byte_eqb (to_lower c) "s" = false ->
  (m, t) ∈ exec (fold_lit c) s ->
  exists d, m = String d "" /\ to_lower d = to_lower c.
Proof.
  intros Hk Hs. unfold fold_lit. rewrite Hk, Hs.
  destruct (is_lower (to_lower c)); simpl;
    (destruct s as [|d s]; [by intros ?%elem_of_nil|]).
  - destruct (byte_eqb (to_lower d) (to_lower c)) eqn:E;
      [|by intros ?%elem_of_nil].
    intros [= -> ->]%list_elem_of_singleton. apply byte_eqb_true in E. eauto.
  - destruct (byte_eqb c d) eqn:E; [|by intros ?%elem_of_nil].
    intros [= -> ->]%list_elem_of_singleton. apply byte_eqb_true in E as ->. eauto.
Qed.

Lemma fold_str_lower w s m t :
  Forall (fun c => byte_eqb (to_lower c) "k" = false
                   /\ byte_eqb (to_lower c) "s" = false) (bytes w) ->
  (m, t) ∈ exec (fold_str w) s -> lower_str m = lower_str w.
Proof.
  revert s m t. induction w as [|c w IH]; intros s m t Hall.
  - by intros [= -> ->]%list_elem_of_singleton.
  - apply Forall_cons in Hall as [[Hk Hs] Hall].
    change (fold_str (String c w)) with (Cat (fold_lit c) (fold_str w)).
    intros (m1 & t1 & m2 & -> & H1 & H2)%exec_Cat_inv.
    apply (fold_lit_plain _ _ _ _ Hk Hs) in H1 as (d & -> & Hd).
    rewrite app_cons, app_empty_l. simpl. rewrite Hd. f_equal. by eapply IH.
Qed.

Lemma favicon_word_lower s m t :
  (m, t) ∈ exec (fold_str "favicon.ico") s -> lower_str m = "favicon.ico".
Proof.
  intros H. rewrite (fold_str_lower "favicon.ico" s m t); [reflexivity| |exact H].
  apply Forall_forall. intros c Hc%list_elem_of_In.
  assert (forallb (fun c => negb (byte_eqb (to_lower c) "k")
                            && negb (byte_eqb (to_lower c) "s"))
            (bytes "favicon.ico") = true) as Hall by reflexivity.
  rewrite forallb_forall in Hall. apply Hall in Hc.
  apply andb_true_iff in Hc as [Hk Hs]. by split; apply negb_true_iff.
Qed.

(** Every match of the pattern ends with favicon.ico in some letter case. *)
Lemma favicon_re_ends s m t :
  (m, t) ∈ exec favicon_re s ->
  exists pre suf, m = pre +:+ suf /\ lower_str suf = "favicon.ico".
Proof.
  unfold favicon_re.
  change (fold_str "/favicon.ico")
    with (Cat (fold_lit "/") (fold_str "favicon.ico")).
  intros [H|[H|H]%exec_Alt_inv]%exec_Alt_inv.
  - apply exec_Cat_inv in H as (ma & ta & ma' & -> & _ & H).
    apply exec_Cat_inv in H as (mb & tb & mb' & -> & _ & H).
    apply exec_Cat_inv in H as (mc & tc & mc' & -> & _ & H).
    apply exec_Cat_inv in H as (md & td & md' & -> & _ & H).
    apply exec_Cat_inv in H as (m1 & t1 & m2 & -> & _ & H).
    exists (ma +:+ mb +:+ mc +:+ md +:+ m1), m2.
    split; [by rewrite !app_assoc_str|by eapply favicon_word_lower].
  - apply exec_Cat_inv in H as (m1 & t1 & m2 & -> & _ & H).
    exists m1, m2. split; [done|by eapply favicon_word_lower].
  - exists "", m. split; [done|by eapply favicon_word_lower].
Qed.

Lemma find_all_min_len fuel r s :
  0 < min_len r ->
  Forall (fun m => min_len r <= String.length m) (find_all fuel r s).
Proof.
  intros Hr. revert s. induction fuel as [|fuel IH]; intros s; simpl; [done|].
  destruct (match_here r s) as [[m t]|] eqn:Hm.
  - apply match_here_elem, exec_min_len in Hm.
    destruct m as [|c m]; [simpl in Hm; lia|]. constructor; [done|apply IH].
  - destruct s; [done|apply IH].
Qed.

(** Matches do not overlap: together they are no longer than the text. *)
Lemma find_all_total fuel r s :
  total_length (find_all fuel r s) <= String.length s.
Proof.
  revert s. induction fuel as [|fuel IH]; intros s; simpl; [lia|].
  destruct (match_here r s) as [[m t]|] eqn:Hm.
  - apply match_here_elem, exec_sound in Hm as ->. rewrite length_app_str.
    destruct m as [|c m].
    + destruct t as [|d t]; simpl; [lia|]. specialize (IH t). lia.
    + change (total_length (String c m :: find_all fuel r t))
        with (String.length (String c m) + total_length (find_all fuel r t)).
      specialize (IH t). lia.
  - destruct s as [|c t]; simpl; [lia|]. specialize (IH t). lia.
Qed.

Lemma total_length_ge k (l : list string) :
  Forall (fun m => k <= String.length m) l -> k * length l <= total_length l.
Proof.
  induction 1 as [|m l Hm _ IH]; simpl; [lia|].
  change (total_length (m :: l)) with (String.length m + total_length l). lia.
Qed.

Lemma dedup_length_le (ms : list string) :
  length (dedup_loop ms).2 <= length ms.
Proof.
  induction ms as [|y ms IH] using rev_ind; [done|].
  rewrite dedup_links_snoc, !length_app. case_decide; simpl; lia.
Qed.

End PatternFacts.

(** X5: every link the extractor returns ends with favicon.ico, written
    in any mix of upper and lower case. *)
Theorem extracted_links_end_with_favicon_ico (content : string) :
  Forall (fun x => exists pre suf, x = pre +:+ suf /\ lower_str suf = "favicon.ico")
    (extractFaviconLinks content).
Proof.
  apply Forall_forall. intros x Hx%dedup_elem_1.
  pose proof (FindAllString_favicon_nonempty content) as Hall.
  rewrite Forall_forall in Hall.
  eapply favicon_re_ends, find_all_matches; [exact Hx|by apply Hall].
Qed.

(** X6: no link the extractor returns contains a double quote or one of
    the white space bytes tab, newline, form feed, carriage return and
    space. *)
Theorem extracted_links_have_no_quote_or_space (content : string) :
  Forall (fun x => Forall (fun c => not_quote_space c = true) (bytes x))
    (extractFaviconLinks content).
Proof.
  apply Forall_forall. intros x Hx%dedup_elem_1.
  pose proof (FindAllString_favicon_nonempty content) as Hall.
  rewrite Forall_forall in Hall.
  eapply exec_within; [apply favicon_re_within|].
  eapply find_all_matches; [exact Hx|by apply Hall].
Qed.

(** X7: every link the extractor returns has at least 11 bytes, and since
    matches do not overlap, a text of [n] bytes yields at most [n / 11]
    links. *)
Theorem extracted_links_are_bounded_by_the_text (content : string) :
  Forall (fun x => 11 <= String.length x) (extractFaviconLinks content)
  /\ 11 * length (extractFaviconLinks content) <= String.length content.
Proof.
  assert (Forall (fun m => 11 <= String.length m) (FindAllString favicon_re content))
    as Hmin.
  { apply (find_all_min_len _ favicon_re). vm_compute. lia. }
  split.
  - apply Forall_forall. intros x Hx%dedup_elem_1.
    rewrite Forall_forall in Hmin. by apply Hmin.
  - pose proof (dedup_length_le (FindAllString favicon_re content)).
    pose proof (total_length_ge 11 _ Hmin).
    pose proof (find_all_total (S (String.length content)) favicon_re content).
    unfold extractFaviconLinks, FindAllString in *. lia.
Qed.

(** * Further properties: the URL list reader *)

Section RereadFacts.

Local Arguments is_space : simpl never.
Implicit Types (s y : list ascii) (x u : string) (lines urls : list string).

Ltac by_shorter IH := eapply IH; [|reflexivity]; simpl; lia.

(** The loop gives up at the first line that is too long; otherwise it
    ends with the read error, if there is one, or with the URLs. *)
Lemma scan_loop_spec lines rerr acc :
  (Forall short lines
   /\ scan_loop lines rerr acc
      = match rerr with
        | Some msg => Err (InputError msg)
        | None => Ok (acc ++ filter (fun u => u <> "") (TrimSpace <$> lines))
        end)
  \/ (~ Forall short lines /\ scan_loop lines rerr acc = Err ErrTooLong).
Proof.
  revert acc. induction lines as [|line lines IH]; intros acc; simpl.
  { left. split; [done|]. destruct rerr; [done|]. by rewrite app_nil_r. }
  destruct (N.leb_spec MaxScanTokenSize (N.of_nat (String.length line)))
    as [Hle|Hlt].
  { right. split; [|done]. intros [Hs _]%Forall_cons. unfold short in Hs. lia. }
  destruct (IH (if decide (url_of_line line = "") then acc
                else acc ++ [url_of_line line])) as [[Hall ->]|[Hnot ->]].
  - left. split; [by constructor|]. destruct rerr; [done|]. f_equal.
    rewrite filter_cons, <-url_of_line_TrimSpace.
    destruct (decide (url_of_line line = "")) as [He|Hne].
    + by rewrite decide_False by (by intros ?).
    + rewrite decide_True by done. by rewrite <-app_assoc.
  - right. split; [|done]. by intros [_ ?]%Forall_cons.
Qed.

Lemma trim_left_suffix s : trim_left s `suffix_of` s.
Proof.
  remember (length s) as n eqn:Hn. revert s Hn.
  induction n as [n IH] using lt_wf_ind. intros s ->.
  destruct s as [|c t]; [done|]. rewrite trim_left_unfold.
  destruct (is_space [c]); [apply suffix_cons_r; by_shorter IH|].
  destruct t as [|d t2]; [done|].
  destruct (is_space [c; d]); [do 2 apply suffix_cons_r; by_shorter IH|].
  destruct t2 as [|e t3]; [done|].
  destruct (is_space [c; d; e]); [do 3 apply suffix_cons_r; by_shorter IH|done].
Qed.

Lemma trim_left_id s : starts_space s = false -> trim_left s = s.
Proof.
  destruct s as [|c t]; [done|]. rewrite trim_left_unfold. unfold starts_space.
  intros [-> H]%orb_false_iff. destruct t as [|d t2]; [done|].
  apply orb_false_iff in H as [-> H]. destruct t2 as [|e t3]; [done|].
  by rewrite H.
Qed.

Lemma trim_left_rev_id s : starts_space_rev s = false -> trim_left_rev s = s.
Proof.
  destruct s as [|c t]; [done|]. rewrite trim_left_rev_unfold.
  unfold starts_space_rev.
  intros [-> H]%orb_false_iff. destruct t as [|d t2]; [done|].
  apply orb_false_iff in H as [-> H]. destruct t2 as [|e t3]; [done|].
  by rewrite H.
Qed.

Lemma starts_space_prefix_false y s :
  y `prefix_of` s -> starts_space s = false -> starts_space y = false.
Proof.
  intros [k ->]. destruct y as [|c [|d [|e y]]]; [done|..]; simpl.
  - destruct k as [|d k]; simpl.
    + intros [-> _]%orb_false_iff. done.
    + intros [-> _]%orb_false_iff. done.
  - intros [-> H]%orb_false_iff. apply orb_false_iff in H as [-> _]. done.
  - intros [-> H]%orb_false_iff. apply orb_false_iff in H as [-> ->]. done.
Qed.

(** Trimming what is trimmed changes nothing. *)
Lemma trim_idem s :
  trim_right (trim_left (trim_right (trim_left s))) = trim_right (trim_left s).
Proof.
  set (y := trim_right (trim_left s)).
  assert (starts_space y = false) as Hl.
  { eapply starts_space_prefix_false; [apply trim_right_prefix|].
    apply trim_left_no_space. }
  rewrite (trim_left_id y Hl). unfold trim_right at 1.
  rewrite trim_left_rev_id; [apply reverse_involutive|].
  subst y. unfold trim_right. rewrite reverse_involutive.
  apply trim_left_rev_no_space.
Qed.

Lemma TrimSpace_idem x : TrimSpace (TrimSpace x) = TrimSpace x.
Proof. unfold TrimSpace. by rewrite bytes_of_bytes, trim_idem. Qed.

Lemma trim_keeps (P : ascii -> Prop) s :
  Forall P s -> Forall P (trim_right (trim_left s)).
Proof.
  intros H. destruct (trim_left_suffix s) as [k1 Hk1].
  destruct (trim_right_prefix (trim_left s)) as [k2 Hk2].
  rewrite Hk1, Hk2 in H. apply Forall_app in H as [_ H].
  by apply Forall_app in H as [H _].
Qed.

Lemma length_bytes x : length (bytes x) = String.length x.
Proof. induction x as [|c x IH]; [done|]. simpl. by rewrite IH. Qed.

Lemma TrimSpace_length x : String.length (TrimSpace x) <= String.length x.
Proof.
  rewrite <-!length_bytes. unfold TrimSpace. rewrite bytes_of_bytes.
  pose proof (prefix_length _ _ (trim_right_prefix (trim_left (bytes x)))).
  pose proof (suffix_length _ _ (trim_left_suffix (bytes x))). lia.
Qed.

Lemma split_lines_unfold c (t : string) :
  split_lines (String c t)
  = if byte_eqb c (byte 10) then "" :: split_lines t
    else match split_lines t with
         | [] => [String c ""]
         | l :: ls => String c l :: ls
         end.
Proof. reflexivity. Qed.

(** No line holds a newline. *)
Lemma split_lines_no_newline (content : string) :
  Forall (fun line => Forall (fun c => c <> byte 10) (bytes line))
    (split_lines content).
Proof.
  induction content as [|c t IH]; [done|]. rewrite split_lines_unfold.
  destruct (byte_eqb c (byte 10)) eqn:E; [by constructor|].
  assert (c <> byte 10) as Hc.
  { intros ->. by rewrite (proj2 (byte_eqb_true _ _) eq_refl) in E. }
  destruct (split_lines t) as [|l ls]; [by repeat constructor|].
  apply Forall_cons in IH as [Hl Hls]. constructor; [by constructor|done].
Qed.

Lemma split_lines_line u (rest : string) :
  Forall (fun c => c <> byte 10) (bytes u) ->
  split_lines (u +:+ nl +:+ rest) = u :: split_lines rest.
Proof.
  induction u as [|c u IH]; [done|]. intros [Hc Hu]%Forall_cons.
  rewrite app_cons, split_lines_unfold. destruct (byte_eqb c (byte 10)) eqn:E.
  { by apply byte_eqb_true in E. }
  by rewrite IH.
Qed.

Lemma split_lines_join urls :
  Forall (fun u => Forall (fun c => c <> byte 10) (bytes u)) urls ->
  split_lines (join_lines urls) = urls.
Proof.
  induction 1 as [|u urls Hu _ IH]; [done|]. simpl.
  by rewrite split_lines_line, IH.
Qed.

End RereadFacts.

(** X8: how [readURLsFromFile] ends.  If the file does not open, it
    returns that error.  Otherwise it returns the scanner's error exactly
    when some line has 65536 bytes or more, the read error exactly when
    all lines are shorter and reading ends in an error, and a list
    exactly when all lines are shorter and reading ends at the end of the
    file; a line that is too long or a failed read discards the URLs of
    all lines before.  Its only effect is opening the file. *)
Theorem readURLsFromFile_outcomes (env : Env) (filename : string) (st : State) :
  let r := (readURLsFromFile env filename st).1 in
  match os_Open env filename with
  | OpenErr msg => r = Err (InputError msg)
  | Opened content rerr =>
      (r = Err ErrTooLong <-> ~ Forall short (split_lines content))
      /\ (forall msg, r = Err (InputError msg) <->
            Forall short (split_lines content) /\ rerr = Some msg)
      /\ (forall urls, r = Ok urls <->
            Forall short (split_lines content) /\ rerr = None
            /\ urls = filter (fun u => u <> "") (TrimSpace <$> split_lines content))
  end
  /\ trace (readURLsFromFile env filename st).2 = trace st ++ [EvOpenFile filename]
  /\ store (readURLsFromFile env filename st).2 = store st
  /\ requests (readURLsFromFile env filename st).2 = requests st
  /\ execs (readURLsFromFile env filename st).2 = execs st.
Proof.
  intros r. subst r. unfold readURLsFromFile.
  destruct (os_Open env filename) as [msg|content rerr]; simpl; [done|].
  split; [|done].
  assert (forall P Q : Prop, (P -> Q) -> (Q -> P) -> (P <-> Q)) as iffI by tauto.
  destruct (scan_loop_spec (split_lines content) rerr []) as [[Hall ->]|[Hnot ->]];
    [destruct rerr as [e|]|];
    split_and!; try intros x; apply iffI; intros H;
    repeat match type of H with
      | _ /\ _ => let H' := fresh in destruct H as [H' H]
      end;
    simplify_eq/=; try done; try contradiction; by split_and!.
Qed.

(** X9: reading is stable.  A file that holds the URLs returned by
    [readURLsFromFile], one on each line, reads back as the same list:
    the URLs hold no newline, are already trimmed, are not blank and fit
    the scanner's buffer. *)
Theorem readURLsFromFile_reads_back_its_result
    (env env' : Env) (filename filename' : string) (st st' : State)
    (urls : list string) :
  (readURLsFromFile env filename st).1 = Ok urls ->
  os_Open env' filename' = Opened (join_lines urls) None ->
  (readURLsFromFile env' filename' st').1 = Ok urls
  /\ Forall (fun u => TrimSpace u = u /\ short u
                      /\ Forall (fun c => c <> byte 10) (bytes u)) urls.
Proof.
  unfold readURLsFromFile at 1.
  destruct (os_Open env filename) as [msg|content rerr]; simpl; [done|].
  intros (-> & Hshort & ->)%scan_loop_inv Hopen. simpl in Hopen |- *.
  rewrite url_of_line_fmap in Hopen |- *.
  set (urls := filter (fun u => u <> "") (TrimSpace <$> split_lines content))
    in Hopen |- *.
  assert (Forall (fun u => u <> "" /\ TrimSpace u = u /\ short u
                           /\ Forall (fun c => c <> byte 10) (bytes u)) urls)
    as Hurls.
  { apply Forall_forall. intros u [Hu Hin]%list_elem_of_filter.
    apply list_elem_of_fmap in Hin as (line & -> & Hline).
    split_and!; [done|apply TrimSpace_idem| |].
    - rewrite Forall_forall in Hshort. apply Hshort in Hline.
      unfold short in *. pose proof (TrimSpace_length line). lia.
    - pose proof (split_lines_no_newline content) as Hnl.
      rewrite Forall_forall in Hnl. apply Hnl in Hline.
      unfold TrimSpace. rewrite bytes_of_bytes. by apply trim_keeps. }
  split; [|eapply Forall_impl; [exact Hurls|]; by intros u (_ & ? & ? & ?)].
  unfold readURLsFromFile. rewrite Hopen. simpl.
  rewrite split_lines_join
    by (eapply Forall_impl; [exact Hurls|]; by intros u (_ & _ & _ & ?)).
  rewrite scan_loop_ok, url_of_line_fmap
    by (eapply Forall_impl; [exact Hurls|]; by intros u (_ & _ & ? & _)).
  f_equal. simpl. clear -Hurls.
  induction Hurls as [|u us (Hne & Hid & _) _ IH]; [done|].
  rewrite fmap_cons, filter_cons, Hid, decide_True by done. by rewrite IH.
Qed.

Lemma readURLsFromFile_reads_back_its_result_witness :
  let content := "  http://a.test " +:+ String (byte 13) nl +:+ nl
                 +:+ "http://b.test" in
  let env := const_env (GetErr "") (Opened content None) in
  let env' := const_env (GetErr "")
                (Opened (join_lines ["http://a.test"; "http://b.test"]) None) in
  (readURLsFromFile env "urls.txt" start).1 = Ok ["http://a.test"; "http://b.test"]
  /\ os_Open env' "copy.txt"
     = Opened (join_lines ["http://a.test"; "http://b.test"]) None
  /\ (readURLsFromFile env' "copy.txt" start).1
     = Ok ["http://a.test"; "http://b.test"].
Proof.
  intros content env env'.
  assert ((readURLsFromFile env "urls.txt" start).1
          = Ok ["http://a.test"; "http://b.test"]) as Hrun by by vm_compute.
  split; [exact Hrun|]. split; [reflexivity|].
  apply (readURLsFromFile_reads_back_its_result env env' "urls.txt" "copy.txt"
           start start _ Hrun eq_refl).
Defined.

(** * Further properties: the store *)

Section StoreGrowth.

Context (env : Env).
Implicit Types (t : table) (st : State) (calls : list (string * string * string)).

Lemma save_all_snoc calls c st :
  save_all env (calls ++ [c]) st
  = (saveToDatabase env c.1.1 c.1.2 c.2 (save_all env calls st)).2.
Proof. unfold save_all. by rewrite foldl_snoc. Qed.

Lemma saveToDatabase_no_table l m s st :
  store st = None ->
  store (saveToDatabase env l m s st).2 = None
  /\ exists e, (saveToDatabase env l m s st).1 = Some e.
Proof.
  intros Hst. unfold saveToDatabase, db_Exec. simpl.
  destruct (exec_fault env (execs st)); simpl; [by eauto|].
  rewrite Hst. simpl. eauto.
Qed.

(** The rows after one insert: the old ones, and at most the new one. *)
Lemma insert_or_ignore_rows l m s t :
  rows (insert_or_ignore l m s t) = rows t
  \/ rows (insert_or_ignore l m s t)
     = rows t ++ [{| id := next_id t; link := l; md5 := m; sha256 := s |}].
Proof.
  unfold insert_or_ignore. case_decide; [by left|by right].
Qed.

End StoreGrowth.

(** X10: the store only grows.  After any sequence of [saveToDatabase]
    calls the rows that were stored before are still there, unchanged and
    in place; at most one row per call is added, and every added row
    holds the URL and the two digests of one of the calls.  On a database
    without the table every call fails and nothing is stored. *)
Theorem saveToDatabase_only_appends
    (env : Env) (calls : list (string * string * string)) (st : State) :
  match store st with
  | None => store (save_all env calls st) = None
  | Some t =>
      exists t1,
        store (save_all env calls st) = Some t1
        /\ rows t `prefix_of` rows t1
        /\ length (rows t1) <= length (rows t) + length calls
        /\ Forall (fun r => r ∈ rows t
                     \/ (link r, md5 r, sha256 r) ∈ calls) (rows t1)
  end.
Proof.
  induction calls as [|c calls IH] using rev_ind.
  { destruct (store st) as [t|] eqn:Hst; [|done]. exists t.
    split_and!; [done..|simpl; lia|]. apply Forall_forall. by left. }
  rewrite save_all_snoc. destruct c as [[l m] s]. simpl.
  destruct (store st) as [t|] eqn:Hst.
  - destruct IH as (t1 & H1 & Hpre & Hlen & Hall).
    destruct (saveToDatabase_store env l m s _ t1 H1) as (t2 & -> & Ht2).
    exists t2. rewrite length_app. simpl.
    assert (rows t2 = rows t1
            \/ rows t2 = rows t1 ++ [{| id := next_id t1; link := l;
                                        md5 := m; sha256 := s |}]) as [->| ->].
    { destruct Ht2 as [->| ->]; [by left|apply insert_or_ignore_rows]. }
    + split_and!; [done..|lia|].
      eapply Forall_impl; [exact Hall|]. intros r [?|?]; [by left|right].
      apply elem_of_app. by left.
    + split_and!; [done|by apply prefix_app_r|rewrite length_app; simpl; lia|].
      apply Forall_app. split.
      * eapply Forall_impl; [exact Hall|]. intros r [?|?]; [by left|right].
        apply elem_of_app. by left.
      * apply Forall_singleton. right. simpl. apply elem_of_app. right.
        by apply list_elem_of_singleton.
  - by apply saveToDatabase_no_table.
Qed.

(** X11: when the engine does not fail, the URLs of the table after a
    sequence of [saveToDatabase] calls are the URLs it had, followed by
    the new URLs of the calls, each once, in the order in which they were
    first passed: the order the extractor gives to its links. *)
Theorem saveToDatabase_links_in_first_seen_order
    (env : Env) (calls : list (string * string * string)) (st : State) (t : table) :
  (forall n, exec_fault env n = None) ->
  store st = Some t ->
  exists t1,
    store (save_all env calls st) = Some t1
    /\ links_of t1
       = links_of t
         ++ filter (fun l => l ∉ links_of t) (dedup_loop (call_links calls)).2.
Proof.
  intros Hf Hst. induction calls as [|c calls IH] using rev_ind.
  { exists t. split; [done|]. simpl. by rewrite app_nil_r. }
  destruct IH as (t1 & H1 & Hlinks). destruct c as [[l m] s].
  rewrite save_all_snoc. simpl.
  destruct (saveToDatabase_no_fault env l m s _ t1 H1 (Hf _)) as [_ ->].
  eexists. split; [done|].
  unfold call_links in *.
  change ((fun c : string * string * string => c.1.1) <$> calls ++ [(l, m, s)])
    with (fmap (M:=list) (fun c : string * string * string => c.1.1)
            (calls ++ [(l, m, s)])).
  rewrite fmap_app.
  change ((fun c : string * string * string => c.1.1) <$> [(l, m, s)]) with [l].
  rewrite dedup_links_snoc, filter_app.
  set (ls := (fun c : string * string * string => c.1.1) <$> calls) in *.
  assert (l ∈ links_of t1 <-> l ∈ links_of t \/ l ∈ ls) as Hin.
  { rewrite Hlinks, elem_of_app, list_elem_of_filter, dedup_elem.
    destruct (decide (l ∈ links_of t)); tauto. }
  destruct (decide (l ∈ ls)) as [Hls|Hls].
  - rewrite filter_nil, app_nil_r, insert_or_ignore_present by tauto. done.
  - destruct (decide (l ∈ links_of t)) as [Ht|Ht].
    + rewrite insert_or_ignore_present by tauto.
      rewrite filter_cons, decide_False by tauto.
      by rewrite filter_nil, app_nil_r.
    + rewrite insert_or_ignore_absent by tauto. unfold links_of at 1. simpl.
      rewrite fmap_app. simpl. fold (links_of t1).
      rewrite filter_cons, decide_True by done.
      by rewrite filter_nil, Hlinks, <-app_assoc.
Qed.

Lemma saveToDatabase_links_in_first_seen_order_witness :
  let env := const_env (GetErr "") (OpenErr "") in
  let calls := [("http://b.test/favicon.ico", "m1", "s1");
                ("http://a.test/favicon.ico", "m2", "s2");
                ("http://b.test/favicon.ico", "m3", "s3")] in
  (forall n, exec_fault env n = None)
  /\ store (start_with empty_table) = Some empty_table
  /\ exists t1,
       store (save_all env calls (start_with empty_table)) = Some t1
       /\ links_of t1 = ["http://b.test/favicon.ico"; "http://a.test/favicon.ico"].
Proof.
  intros env calls.
  assert (forall n, exec_fault env n = None) as Hf by done.
  split; [exact Hf|]. split; [reflexivity|].
  destruct (saveToDatabase_links_in_first_seen_order env calls
              (start_with empty_table) empty_table Hf eq_refl) as (t1 & H1 & H2).
  exists t1. split; [exact H1|]. rewrite H2. by vm_compute.
Defined.

(** * Further properties: the run *)

(** X12: the three fatal errors of [main].  When the URL list cannot be
    read, when the database cannot be opened and when the table cannot be
    created, [main] writes one line to standard error and returns: it
    makes no request and leaves the store as it was; the store is closed
    only in the third case, where it had been opened. *)
Theorem main_fatal_errors (env : Env) (filename : string) (st : State) :
  filename <> "" ->
  let read := (readURLsFromFile env filename st).1 in
  (forall e, read = Err e ->
     exists st',
       main env (Some filename) st = Ret st'
       /\ trace st'
          = trace st ++ [EvOpenFile filename;
                         Stderr ("Error reading URLs from file: " +:+ Error e +:+ nl)]
       /\ store st' = store st /\ requests st' = requests st
       /\ execs st' = execs st)
  /\ (forall urls msg, read = Ok urls -> sql_Open env = Some msg ->
        exists st',
          main env (Some filename) st = Ret st'
          /\ trace st'
             = trace st ++ [EvOpenFile filename; EvOpenDb;
                            Stderr ("Error opening database: " +:+ msg +:+ nl)]
          /\ store st' = store st /\ requests st' = requests st
          /\ execs st' = execs st)
  /\ (forall urls msg, read = Ok urls -> sql_Open env = None ->
        exec_fault env (execs st) = Some msg ->
        exists st',
          main env (Some filename) st = Ret st'
          /\ trace st'
             = trace st ++ [EvOpenFile filename; EvOpenDb;
                            EvExec CreateTableIfNotExists;
                            Stderr ("Error creating table: " +:+ msg +:+ nl);
                            EvCloseDb]
          /\ store st' = store st /\ requests st' = requests st
          /\ execs st' = S (execs st)).
Proof.
  intros Hne read. subst read. unfold main. simpl. rewrite decide_False by done.
  assert (forall r, (readURLsFromFile env filename st).1 = r ->
            readURLsFromFile env filename st = (r, emit (EvOpenFile filename) st))
    as Hrd.
  { intros r <-. unfold readURLsFromFile. by destruct (os_Open env filename). }
  split_and!.
  - intros e He. rewrite (Hrd _ He). eexists. split; [done|]. simpl.
    by rewrite <-app_assoc.
  - intros urls msg Hu Ho. rewrite (Hrd _ Hu), Ho. eexists. split; [done|].
    simpl. by rewrite <-!app_assoc.
  - intros urls msg Hu Ho Hf. rewrite (Hrd _ Hu), Ho. unfold db_Exec. simpl.
    rewrite Hf. simpl. eexists. split; [done|]. simpl. by rewrite <-!app_assoc.
Qed.

Lemma main_fatal_errors_witness :
  let env := const_env (GetErr "") (OpenErr "open urls.txt: no such file") in
  "urls.txt" <> ""
  /\ exists st',
       main env (Some "urls.txt") start = Ret st'
       /\ trace st'
          = [EvOpenFile "urls.txt";
             Stderr ("Error reading URLs from file: open urls.txt: no such file"
                     +:+ nl)]
       /\ store st' = None.
Proof.
  intros env. assert ("urls.txt" <> "") as Hne by done. split; [exact Hne|].
  destruct (main_fatal_errors env "urls.txt" start Hne) as [H _].
  destruct (H (InputError "open urls.txt: no such file") eq_refl)
    as (st' & H1 & H2 & H3 & _).
  exists st'. by split_and!.
Defined.

Section RunFacts.

Context (env : Env).
Implicit Types (st : State) (base link u : string) (links urls : list string).

Lemma store_grows_same st st' : store st' = store st -> store_grows st st'.
Proof. intros Heq t Ht. exists t. by rewrite Heq. Qed.

Lemma store_grows_trans st1 st2 st3 :
  store_grows st1 st2 -> store_grows st2 st3 -> store_grows st1 st3.
Proof.
  intros H12 H23 t Ht. destruct (H12 t Ht) as (t2 & Ht2 & Hp2 & Hok2).
  destruct (H23 t2 Ht2) as (t3 & Ht3 & Hp3 & Hok3).
  exists t3. split_and!; [done|by etrans|auto].
Qed.

Lemma fetchHTML_frame url st :
  store (fetchHTML env url st).2 = store st
  /\ execs (fetchHTML env url st).2 = execs st
  /\ requests (fetchHTML env url st).2 = S (requests st).
Proof.
  unfold fetchHTML, http_get.
  destruct (http_Get env (requests st) url) as [|c [d r]]; simpl; [done|].
  destruct (negb _); [done|]. by destruct r.
Qed.

Lemma calculateHashes_frame url st :
  store (calculateHashes env url st).2 = store st
  /\ execs (calculateHashes env url st).2 = execs st
  /\ requests st <= requests (calculateHashes env url st).2 <= requests st + 2.
Proof.
  unfold calculateHashes, http_get, copy_all. simpl.
  destruct (http_Get env (requests st) url) as [|c1 [d1 [|]]]; simpl;
    try (split_and!; [done..|lia|lia]).
  destruct (http_Get env (S (requests st)) url) as [|c2 [d2 [|]]]; simpl;
    (split_and!; [done..|lia|lia]).
Qed.

Lemma saveToDatabase_frame l m s st :
  store_grows st (saveToDatabase env l m s st).2
  /\ requests (saveToDatabase env l m s st).2 = requests st
  /\ execs (saveToDatabase env l m s st).2 = S (execs st).
Proof.
  split.
  - intros t Ht. destruct (saveToDatabase_store env l m s st t Ht)
      as (t' & -> & [->| ->]).
    + by exists t.
    + eexists. split_and!; [done| |apply insert_or_ignore_ok].
      destruct (insert_or_ignore_rows l m s t) as [->| ->];
        [done|by apply prefix_app_r].
  - unfold saveToDatabase, db_Exec. simpl.
    destruct (exec_fault env (execs st)); [done|]. simpl.
    by destruct (store st).
Qed.

Lemma process_link_inv base link st st' :
  process_link env base link st = Ret st' ->
  store_grows st st' /\ within_budget 1 st st'.
Proof.
  unfold process_link, within_budget.
  destruct (resolveLink base link) as [full|]; [|done].
  destruct (calculateHashes_frame full st) as (Hs & He & Hr).
  destruct (calculateHashes env full st) as [[[m s]|e] st1]; simpl in *.
  - match goal with |- context [saveToDatabase _ _ _ _ ?x] => set (st2 := x) end.
    destruct (saveToDatabase_frame full m s st2) as (Hg & Hr2 & He2).
    destruct (saveToDatabase env full m s st2) as [[e|] st3]; simpl in *;
      intros [= <-]; simpl; (split;
        [eapply store_grows_trans; [by apply store_grows_same|exact Hg]|lia]).
  - intros [= <-]. simpl. split; [by apply store_grows_same|lia].
Qed.

Lemma process_links_inv base links st st' :
  process_links env base links st = Ret st' ->
  store_grows st st' /\ within_budget (length links) st st'.
Proof.
  revert st. induction links as [|link links IH]; intros st; simpl.
  { intros [= <-]. split; [by apply store_grows_same|unfold within_budget; lia]. }
  destruct (process_link env base link st) as [st1|] eqn:E; [|done].
  apply process_link_inv in E as [Hg1 Hb1]. intros [Hg2 Hb2]%IH.
  split; [by eapply store_grows_trans|]. unfold within_budget in *. lia.
Qed.

Lemma process_url_inv u st st' :
  process_url env u st = Ret st' ->
  store_grows st st'
  /\ within_budget
       match (fetchHTML env u (emit (progress_line u) st)).1 with
       | Ok html => length (extractFaviconLinks html)
       | Err _ => 0
       end
       (count_request st) st'.
Proof.
  unfold process_url, Println. fold (progress_line u).
  destruct (fetchHTML_frame u (emit (progress_line u) st)) as (Hs & He & Hr).
  destruct (fetchHTML env u _) as [[html|e] st1]; simpl in *.
  - case_decide as Hlen.
    + intros [= <-]. split; [by apply store_grows_same|].
      unfold within_budget. simpl. lia.
    + intros [Hg Hb]%process_links_inv.
      split; [eapply store_grows_trans; [by apply store_grows_same|exact Hg]|].
      unfold within_budget in *. simpl. lia.
  - intros [= <-]. split; [by apply store_grows_same|].
    unfold within_budget. simpl. lia.
Qed.

Lemma process_urls_inv urls st st' :
  process_urls env urls st = Ret st' ->
  store_grows st st' /\ requests st + length urls <= requests st'.
Proof.
  revert st. induction urls as [|u urls IH]; intros st; simpl.
  { intros [= <-]. split; [by apply store_grows_same|lia]. }
  destruct (process_url env u st) as [st1|] eqn:E; [|done].
  apply process_url_inv in E as [Hg1 Hb1]. intros [Hg2 Hb2]%IH.
  split; [by eapply store_grows_trans|].
  unfold within_budget in Hb1. simpl in Hb1. lia.
Qed.

Lemma readURLsFromFile_state filename st :
  (readURLsFromFile env filename st).2 = emit (EvOpenFile filename) st.
Proof. unfold readURLsFromFile. by destruct (os_Open env filename). Qed.

End RunFacts.

(** X13: a run keeps what is stored.  [main] always returns; every row
    that was in the table before the run is still there after it,
    unchanged and in place, and the constraints of the table (one row per
    URL, one row per id) still hold if they held before.  A table that
    the run creates satisfies them. *)
Theorem main_keeps_the_store (env : Env) (flag : option string) (st : State) :
  exists st',
    main env flag st = Ret st'
    /\ store_grows st st'
    /\ (store st = None -> forall t', store st' = Some t' -> table_ok t').
Proof.
  unfold main. case_decide.
  { eexists. split_and!; [done|by apply store_grows_same|].
    simpl. by intros ->. }
  pose proof (readURLsFromFile_state env (default "" flag) st) as Hrd.
  destruct (readURLsFromFile env (default "" flag) st) as [[urls|e] st1];
    simpl in Hrd; subst st1.
  2:{ eexists. split_and!; [done|by apply store_grows_same|].
      simpl. by intros ->. }
  destruct (sql_Open env).
  { eexists. split_and!; [done|by apply store_grows_same|].
    simpl. by intros ->. }
  unfold db_Exec. simpl. destruct (exec_fault env (execs st)); simpl.
  { eexists. split_and!; [done|by apply store_grows_same|].
    simpl. by intros ->. }
  match goal with |- context [process_urls env urls ?x] => set (st2 := x) end.
  destruct (process_urls_returns env urls st2) as (st3 & evs & Hrun & _).
  rewrite Hrun. simpl. apply process_urls_inv in Hrun as [Hg _].
  eexists. split_and!; [done| |].
  - eapply store_grows_trans; [|eapply store_grows_trans; [exact Hg|]];
      [|by apply store_grows_same].
    intros t Ht. exists t. subst st2. simpl. rewrite Ht. done.
  - intros Hnone t'. simpl.
    destruct (Hg empty_table) as (t3 & Ht3 & _ & Hok).
    { subst st2. simpl. by rewrite Hnone. }
    rewrite Ht3. intros [= <-]. apply Hok. split; constructor.
Qed.

(** X14: the loop over the Target URLs composes: handling a list is
    handling its first part and then, from the state that leaves, the
    rest; no URL of the first part affects how the loop is entered for
    the second part other than through that state. *)
Theorem process_urls_of_a_split_list
    (env : Env) (urls1 urls2 : list string) (st : State) :
  exists st1,
    process_urls env urls1 st = Ret st1
    /\ process_urls env (urls1 ++ urls2) st = process_urls env urls2 st1.
Proof.
  revert st. induction urls1 as [|u urls1 IH]; intros st.
  { by exists st. }
  simpl. destruct (process_url_returns env u st) as (st0 & rest & -> & _).
  apply IH.
Qed.

(** X15: what a page costs.  Handling one Target URL always returns; it
    makes one request for the page and then at most two requests and one
    statement for each link the extractor found on it, and none at all if
    the page could not be fetched. *)
Theorem process_url_cost (env : Env) (u : string) (st : State) :
  exists st',
    process_url env u st = Ret st'
    /\ let links :=
         match (fetchHTML env u (emit (progress_line u) st)).1 with
         | Ok html => length (extractFaviconLinks html)
         | Err _ => 0
         end in
       S (requests st) <= requests st' <= S (requests st) + 2 * links
       /\ execs st <= execs st' <= execs st + links.
Proof.
  destruct (process_url_returns env u st) as (st' & rest & Hrun & _).
  exists st'. split; [done|]. by apply process_url_inv in Hrun as [_ Hb].
Qed.

(** * Further properties: from the page text to the resolved URL *)

Section WordFacts.

Implicit Types (r : regex) (s w pre post x : string).

(** What holds of a link the extractor returns: it is a piece of the
    text, not empty, and ends with the word in some letter case. *)
Lemma extracted_link_facts content x :
  x ∈ extractFaviconLinks content ->
  x <> ""
  /\ (exists pre post, content = pre +:+ x +:+ post)
  /\ (exists p suf, x = p +:+ suf /\ lower_str suf = "favicon.ico").
Proof.
  intros Hx%dedup_elem_1.
  pose proof (FindAllString_favicon_nonempty content) as Hall.
  rewrite Forall_forall in Hall. specialize (Hall x Hx).
  split_and!; [done|by eapply find_all_substring|].
  eapply favicon_re_ends, find_all_matches; done.
Qed.

(** A scan that starts before a place where the pattern matches returns
    something. *)
Lemma find_all_finds fuel r pre s :
  is_Some (match_here r s) ->
  String.length (pre +:+ s) < fuel ->
  find_all fuel r (pre +:+ s) <> [].
Proof.
  intros Hs. revert fuel. induction pre as [|c pre IH]; intros fuel Hfuel.
  - rewrite app_empty_l. destruct fuel as [|fuel]; [lia|]. simpl.
    destruct Hs as [[m t] ->]. destruct m; [by destruct s|done].
  - destruct fuel as [|fuel]; [lia|]. rewrite app_cons in *. simpl in *.
    destruct (match_here r (String c (pre +:+ s))) as [[m t]|].
    + by destruct m.
    + apply IH. lia.
Qed.

Lemma to_lower_dot d : to_lower d = to_lower "." -> d = "."%char.
Proof. destruct d as [[] [] [] [] [] [] [] []]; by vm_compute. Qed.

Lemma fold_lit_complete c d t :
  byte_eqb (to_lower c) "k" = false ->
  byte_eqb (to_lower c) "s" = false ->
  is_lower (to_lower c) = true \/ d = c ->
  to_lower d = to_lower c ->
  (String d "", t) ∈ exec (fold_lit c) (String d t).
Proof.
  intros Hk Hs Hcase Hd. unfold fold_lit. rewrite Hk, Hs.
  destruct (is_lower (to_lower c)) eqn:El; simpl.
  - rewrite Hd, (proj2 (byte_eqb_true _ _) eq_refl). by apply list_elem_of_singleton.
  - destruct Hcase as [?| ->]; [done|].
    rewrite (proj2 (byte_eqb_true _ _) eq_refl). by apply list_elem_of_singleton.
Qed.

Lemma fold_str_complete pat w post :
  Forall (fun c => byte_eqb (to_lower c) "k" = false
                   /\ byte_eqb (to_lower c) "s" = false
                   /\ (is_lower (to_lower c) = true
                       \/ forall d, to_lower d = to_lower c -> d = c))
    (bytes pat) ->
  lower_str w = lower_str pat ->
  (w, post) ∈ exec (fold_str pat) (w +:+ post).
Proof.
  revert w. induction pat as [|c pat IH]; intros w Hall Hw.
  { destruct w; [|done]. by apply list_elem_of_singleton. }
  apply Forall_cons in Hall as [(Hk & Hs & Hcase) Hall].
  destruct w as [|d w]; [done|]. simpl in Hw. injection Hw as Hd Hw.
  change (fold_str (String c pat)) with (Cat (fold_lit c) (fold_str pat)).
  cbn [exec]. apply list_elem_of_bind. exists (String d "", w +:+ post).
  split.
  - apply list_elem_of_fmap. exists (w, post). split; [done|by apply IH].
  - rewrite app_cons. apply fold_lit_complete; try done.
    destruct Hcase as [?|Hc]; [by left|right; by apply Hc].
Qed.

(** The word, in any letter case, is matched by the third alternative. *)
Lemma favicon_word_matches w post :
  lower_str w = "favicon.ico" ->
  (w, post) ∈ exec (fold_str "favicon.ico") (w +:+ post).
Proof.
  intros Hw. apply fold_str_complete; [|exact Hw].
  repeat (apply Forall_cons; split;
    [split_and!; [reflexivity|reflexivity|
       first [by left | right; apply to_lower_dot]]|]).
  apply Forall_nil_2.
Qed.

End WordFacts.

(** X16: the extractor finds a link exactly when the page text holds the
    word favicon.ico in some mix of upper and lower case. *)
Theorem extractFaviconLinks_finds_the_word (content : string) :
  (exists x, x ∈ extractFaviconLinks content) <->
  exists pre w post,
    content = pre +:+ w +:+ post /\ lower_str w = "favicon.ico".
Proof.
  split.
  - intros [x (_ & (pre & post & ->) & (p & suf & -> & Hsuf))%extracted_link_facts].
    exists (pre +:+ p), suf, post. split; [by rewrite !app_assoc_str|done].
  - intros (pre & w & post & -> & Hw).
    assert (FindAllString favicon_re (pre +:+ w +:+ post) <> []) as Hne.
    { apply find_all_finds; [|lia]. unfold match_here, favicon_re.
      pose proof (favicon_word_matches w post Hw) as Hin.
      cbn [exec]. destruct (exec (fold_str "favicon.ico") (w +:+ post));
        [by apply elem_of_nil in Hin|].
      match goal with |- is_Some (head ?l) => destruct l eqn:E end; [|done].
      by repeat (apply app_eq_nil in E as [_ E]). }
    destruct (FindAllString favicon_re (pre +:+ w +:+ post)) as [|x ms] eqn:E;
      [done|].
    exists x. unfold extractFaviconLinks. apply dedup_elem. rewrite E.
    apply elem_of_cons. by left.
Qed.

(** X17: every link the extractor returns is resolved without a panic,
    against any base URL, and the resolved URL ends with the link, hence
    with favicon.ico in some letter case. *)
Theorem extracted_links_resolve (content base : string) :
  Forall (fun link =>
            exists full pre suf,
              resolveLink base link = Ret full
              /\ full = pre +:+ suf /\ lower_str suf = "favicon.ico"
              /\ exists before, full = before +:+ link)
    (extractFaviconLinks content).
Proof.
  apply Forall_forall.
  intros link (Hne & _ & (p & suf & -> & Hsuf))%extracted_link_facts.
  unfold resolveLink. destruct (_ || _).
  - exists (p +:+ suf), p, suf. split_and!; [done..|]. by exists "".
  - destruct (p +:+ suf) as [|c t] eqn:E; [done|]. simpl. rewrite <-E.
    destruct (byte_eqb c "/").
    + exists (base +:+ p +:+ suf), (base +:+ p), suf.
      split_and!; [done|by rewrite app_assoc_str|done|by exists base].
    + exists (base +:+ "/" +:+ p +:+ suf), (base +:+ "/" +:+ p), suf.
      split_and!; [done|by rewrite !app_assoc_str|done|].
      exists (base +:+ "/"). by rewrite app_assoc_str.
Qed.
